(** * Ball Sort Puzzle: the tube board, the pour and the win check

    A shallow embedding of the puzzle logic of the two [BallSortGame]
    classes of the repository and of [LevelManager.validateLevel] and
    [LevelManager.createGameLevel]:

    - [Bulk] is the game class that pours as many balls as fit and wins on
      the ball count of every tube;
    - [Single] is the game class that moves one ball per move and wins on
      the placeholder rule.

    JavaScript numbers are integers of [Z]; [array.length] is the [nat]
    length of the list seen through [Z.of_nat].  The tubes of a board are
    objects held in an array: a tube reference is its index in the list, so
    that a source and a destination that are one object are one index. *)

From stdpp Require Import base list strings gmap.
From Stdlib Require Import ZArith Lia.

Local Open Scope Z_scope.

(** ** Data model *)

(** An element of a [balls] array: a colour name, or the [undefined] that
    [Array.prototype.pop] returns on an empty array. *)
Inductive Ball : Type :=
| Color (name : string)
| Undefined.

Record Tube : Type := {
  id : Z;
  balls : list Ball;
  capacity : Z
}.

(** The object built by [createGameLevel]: the level's fields and the
    running move counter. *)
Record GameState : Type := {
  tubes : list Tube;
  moves : Z;
  minMoves : option Z;
  stars : gmap string Z;
  desiredLevel : option Z;
  solutionSteps : option (list (Z * Z))
}.

(** Calls that leave the game object: the view's invalid-move feedback and
    the level manager's record of a completed level. *)
Inductive Call : Type :=
| showInvalidMove (tubeId : Z) (reason : string)
| completeLevel (levelId : Z) (moves : Z) (stars : nat).

(** The fields of a [BallSortGame] that the puzzle logic reads and writes;
    [calls] lists the outgoing calls, latest first. *)
Record Game : Type := {
  currentGameState : GameState;
  selectedTube : option Z;
  gameComplete : bool;
  currentLevel : Z;
  calls : list Call
}.

(** The result object of [isValidMove]: [{ valid: true }] or
    [{ valid: false, reason }]. *)
Inductive MoveResult : Type :=
| Valid
| Invalid (reason : string).

(** ** JavaScript primitives used by the game *)

(** [balls.length] *)
Definition len (bs : list Ball) : Z := Z.of_nat (length bs).

(** [balls.pop()]: the last element and the array without it. *)
Definition pop (bs : list Ball) : Ball * list Ball :=
  match last bs with
  | Some b => (b, removelast bs)
  | None => (Undefined, [])
  end.

(** [balls.push(ball)] *)
Definition push (bs : list Ball) (ball : Ball) : list Ball := bs ++ [ball].

(** [value || fallback] on a number that may be missing: a missing value
    and [0] are both falsy. *)
Definition or_else (value : option Z) (fallback : Z) : Z :=
  match value with
  | Some v => if v =? 0 then fallback else v
  | None => fallback
  end.

(** [moves <= threshold] where the threshold may be [undefined]; a
    comparison with [undefined] is false. *)
Definition le_number (m : Z) (threshold : option Z) : bool :=
  match threshold with
  | Some t => m <=? t
  | None => false
  end.

(** [moves >= minMoves] where [minMoves] may be [undefined]. *)
Definition ge_number (m : Z) (bound : option Z) : bool :=
  match bound with
  | Some b => b <=? m
  | None => false
  end.

(** [tubes.find(t => t.id === tubeId)]: the first tube with that id,
    together with its index, which stands for the object reference. *)
Definition findTube (tubeId : Z) (ts : list Tube) : option (nat * Tube) :=
  list_find (λ t, id t = tubeId) ts.

(** [for (let i = 0; i < n; i++) body] on an explicit state. *)
Fixpoint for_loop {S : Type} (n : nat) (body : S → S) (s : S) : S :=
  match n with
  | O => s
  | Datatypes.S m => for_loop m body (body s)
  end.

(** A tube object after an assignment to the contents of its [balls]. *)
Definition with_balls (bs : list Ball) (t : Tube) : Tube :=
  {| id := id t; balls := bs; capacity := capacity t |}.

(** One loop body of the pour on the tube array: [from.balls.pop()] and
    then [to.balls.push(ball)], the second read seeing the first write. *)
Definition moveBall (i j : nat) (ts : list Tube) : list Tube :=
  match ts !! i with
  | None => ts
  | Some fromTube =>
      let '(ball, rest) := pop (balls fromTube) in
      let ts1 := <[i := with_balls rest fromTube]> ts in
      match ts1 !! j with
      | None => ts1
      | Some toTube => <[j := with_balls (push (balls toTube) ball) toTube]> ts1
      end
  end.

(** Field updates of the game object. *)
Definition with_tubes (ts : list Tube) (gs : GameState) : GameState :=
  {| tubes := ts; moves := moves gs; minMoves := minMoves gs;
     stars := stars gs; desiredLevel := desiredLevel gs;
     solutionSteps := solutionSteps gs |}.

Definition with_moves (m : Z) (gs : GameState) : GameState :=
  {| tubes := tubes gs; moves := m; minMoves := minMoves gs;
     stars := stars gs; desiredLevel := desiredLevel gs;
     solutionSteps := solutionSteps gs |}.

Definition with_state (gs : GameState) (g : Game) : Game :=
  {| currentGameState := gs; selectedTube := selectedTube g;
     gameComplete := gameComplete g; currentLevel := currentLevel g;
     calls := calls g |}.

Definition with_selected (sel : option Z) (g : Game) : Game :=
  {| currentGameState := currentGameState g; selectedTube := sel;
     gameComplete := gameComplete g; currentLevel := currentLevel g;
     calls := calls g |}.

Definition call (c : Call) (g : Game) : Game :=
  {| currentGameState := currentGameState g; selectedTube := selectedTube g;
     gameComplete := gameComplete g; currentLevel := currentLevel g;
     calls := c :: calls g |}.

(** ** Parts shared by the two game classes *)

Definition selectTube (tubeId : Z) (g : Game) : Game :=
  with_selected (Some tubeId) g.

Definition deselectTube (g : Game) : Game := with_selected None g.

(** The star count computed inside [handleLevelComplete]. *)
Definition starsEarned (m : Z) (st : gmap string Z) : nat :=
  if le_number m (st !! "3") then 3%nat
  else if le_number m (st !! "2") then 2%nat
  else if le_number m (st !! "1") then 1%nat
  else 0%nat.

Definition handleLevelComplete (g : Game) : Game :=
  let m := moves (currentGameState g) in
  let st := stars (currentGameState g) in
  {| currentGameState := currentGameState g;
     selectedTube := selectedTube g;
     gameComplete := true;
     currentLevel := currentLevel g;
     calls := completeLevel (currentLevel g) m (starsEarned m st) :: calls g |}.

(** [handleTubeClick], over the [attemptMove] of the class it belongs to. *)
Section Selection.
Variable attemptMove : Z → Z → Game → Game.

Definition handleTubeClick (tubeId : Z) (g : Game) : Game :=
  if gameComplete g then g
  else
    match findTube tubeId (tubes (currentGameState g)) with
    | None => g
    | Some (_, tube) =>
        match selectedTube g with
        | None =>
            if 0 <? len (balls tube) then selectTube tubeId g
            else call (showInvalidMove tubeId "Empty tube - nothing to move") g
        | Some sel =>
            if sel =? tubeId then deselectTube g
            else attemptMove sel tubeId g
        end
    end.

(** A run of taps, oldest first. *)
Definition taps (tubeIds : list Z) (g : Game) : Game :=
  foldl (λ g' t, handleTubeClick t g') g tubeIds.
End Selection.

(** ** The game class with the bulk pour and the count-based win *)
Module Bulk.

Definition isValidMove (fromTube toTube : Tube) : MoveResult :=
  if len (balls fromTube) =? 0 then Invalid "No balls to move"
  else if id fromTube =? id toTube then Invalid "Cannot move to same tube"
  else if capacity toTube <=? len (balls toTube)
       then Invalid "Destination tube is full"
  else Valid.

(** [actualBallsToMove] of [performMove], read before the loop. *)
Definition actualBallsToMove (fromTube toTube : Tube) : Z :=
  let ballsToMove := len (balls fromTube) in
  let availableSpace := capacity toTube - len (balls toTube) in
  Z.min ballsToMove availableSpace.

Definition performMove (i j : nat) (gs : GameState) : GameState :=
  match tubes gs !! i, tubes gs !! j with
  | Some fromTube, Some toTube =>
      let n := actualBallsToMove fromTube toTube in
      let ts := for_loop (Z.to_nat n) (moveBall i j) (tubes gs) in
      with_moves (moves gs + 1) (with_tubes ts gs)
  | _, _ => gs
  end.

(** The local [allTubesAtDesiredLevel] of [checkWinCondition]. *)
Definition allTubesAtDesiredLevel (gs : GameState) : bool :=
  let desired := or_else (desiredLevel gs) 2 in
  forallb (λ tube, len (balls tube) =? desired) (tubes gs).

Definition checkWinCondition (g : Game) : Game :=
  if allTubesAtDesiredLevel (currentGameState g)
  then handleLevelComplete g
  else g.

Definition attemptMove (fromTubeId toTubeId : Z) (g : Game) : Game :=
  let ts := tubes (currentGameState g) in
  match findTube fromTubeId ts, findTube toTubeId ts with
  | Some (i, fromTube), Some (j, toTube) =>
      match isValidMove fromTube toTube with
      | Invalid reason => call (showInvalidMove toTubeId reason) g
      | Valid =>
          let g1 := with_state (performMove i j (currentGameState g)) g in
          checkWinCondition (deselectTube g1)
      end
  | _, _ => g
  end.

Definition handleTubeClick := handleTubeClick attemptMove.
Definition taps := taps attemptMove.

End Bulk.

(** ** The game class with the single-ball move and the placeholder win *)
Module Single.

Definition isValidMove (fromTube toTube : Tube) : MoveResult :=
  if len (balls fromTube) =? 0 then Invalid "No balls to move"
  else if capacity toTube <=? len (balls toTube) then Invalid "Tube is full"
  else Valid.

Definition performMove (i j : nat) (gs : GameState) : GameState :=
  with_moves (moves gs + 1) (with_tubes (moveBall i j (tubes gs)) gs).

(** The condition under which [checkWinCondition] completes the level. *)
Definition placeholderWin (gs : GameState) : bool :=
  let hasEmptyTubes := existsb (λ tube, len (balls tube) =? 0) (tubes gs) in
  let hasFullTubes :=
    existsb (λ tube, len (balls tube) =? capacity tube) (tubes gs) in
  ge_number (moves gs) (minMoves gs) && hasEmptyTubes && hasFullTubes.

Definition checkWinCondition (g : Game) : Game :=
  if placeholderWin (currentGameState g) then handleLevelComplete g else g.

Definition attemptMove (fromTubeId toTubeId : Z) (g : Game) : Game :=
  let ts := tubes (currentGameState g) in
  match findTube fromTubeId ts, findTube toTubeId ts with
  | Some (i, fromTube), Some (j, toTube) =>
      match isValidMove fromTube toTube with
      | Invalid reason => call (showInvalidMove toTubeId reason) g
      | Valid =>
          let g1 := with_state (performMove i j (currentGameState g)) g in
          checkWinCondition (deselectTube g1)
      end
  | _, _ => g
  end.

Definition handleTubeClick := handleTubeClick attemptMove.
Definition taps := taps attemptMove.

End Single.

(** ** Level data and the level manager *)

(** A parsed level file.  A field is [None] when the file lacks it or holds
    a value that is not of the type the validator tests for ([tubes],
    [colors] and [balls] arrays, [capacity] a number). *)
Module Json.
Record TubeData : Type := {
  id : option Z;
  balls : option (list Ball);
  capacity : option Z
}.

Record LevelData : Type := {
  levelId : option Z;
  tubes : option (list TubeData);
  colors : option (list string);
  minMoves : option Z;
  stars : gmap string Z;
  desiredLevel : option Z;
  solutionSteps : option (list (Z * Z))
}.
End Json.

Module LevelManager.

(** [levelData.colors.includes(ball)] *)
Definition includes (colors : list string) (ball : Ball) : bool :=
  match ball with
  | Color name => bool_decide (name ∈ colors)
  | Undefined => false
  end.

(** The body of the loop over [levelData.tubes]. *)
Definition validTube (colors : list string) (tube : Json.TubeData) : bool :=
  match Json.id tube, Json.balls tube, Json.capacity tube with
  | Some _, Some bs, Some c => (1 <=? c) && forallb (includes colors) bs
  | _, _, _ => false
  end.

Definition validateLevel (levelData : option Json.LevelData) : bool :=
  match levelData with
  | None => false
  | Some d =>
      match Json.levelId d, Json.tubes d, Json.colors d with
      | Some l, Some ts, Some cs =>
          negb (l =? 0) && forallb (validTube cs) ts
      | _, _, _ => false
      end
  end.

(** The copy of one tube; [None] where the file's tube is not of the
    shape the game reads. *)
Definition copyTube (tube : Json.TubeData) : option Tube :=
  match Json.id tube, Json.balls tube, Json.capacity tube with
  | Some i, Some bs, Some c => Some {| id := i; balls := bs; capacity := c |}
  | _, _, _ => None
  end.

(** [createGameLevel]: [None] is the [null] result or the exception of
    mapping over tubes that are not there. *)
Definition createGameLevel (levelData : option Json.LevelData)
  : option GameState :=
  d ← levelData;
  ts ← Json.tubes d;
  ts' ← mapM copyTube ts;
  Some {| tubes := ts'; moves := 0; minMoves := Json.minMoves d;
          stars := Json.stars d; desiredLevel := Json.desiredLevel d;
          solutionSteps := Json.solutionSteps d |}.

(** [loadLevel] over the level files, indexed by level id: a level that
    is not listed or fails validation is an exception, [None]. *)
Definition loadLevel (files : Z → option Json.LevelData) (levelId : Z)
  : option Json.LevelData :=
  d ← files levelId;
  if validateLevel (Some d) then Some d else None.

End LevelManager.

(** [BallSortGame.loadLevel], the same in both classes: a failure is caught
    and leaves the game as it was. *)
Definition loadLevel (files : Z → option Json.LevelData) (levelId : Z)
    (g : Game) : Game :=
  match LevelManager.loadLevel files levelId with
  | None => g
  | Some levelData =>
      match LevelManager.createGameLevel (Some levelData) with
      | None => g
      | Some gs =>
          {| currentGameState := gs; selectedTube := None;
             gameComplete := false; currentLevel := levelId;
             calls := calls g |}
      end
  end.

Definition resetLevel (files : Z → option Json.LevelData) (g : Game) : Game :=
  if currentLevel g =? 0 then g else loadLevel files (currentLevel g) g.


(** ** Notions the properties are stated with *)

(** All balls of a board, tube after tube, bottom to top. *)
Definition allBalls (ts : list Tube) : list Ball := concat (balls <$> ts).

(** A tube holds no more balls than its capacity. *)
Definition fits (t : Tube) : Prop := len (balls t) ≤ capacity t.

(** A move request that a class applies: both ids resolve and its
    [isValidMove] answers [{ valid: true }]. *)
Definition accepted (isValidMove : Tube → Tube → MoveResult)
    (fromTubeId toTubeId : Z) (gs : GameState) : bool :=
  match findTube fromTubeId (tubes gs), findTube toTubeId (tubes gs) with
  | Some (_, fromTube), Some (_, toTube) =>
      match isValidMove fromTube toTube with
      | Valid => true
      | Invalid _ => false
      end
  | _, _ => false
  end.

(** The number of balls the bulk pour moves, as the specification gives it. *)
Definition poured (f t : Tube) : nat :=
  Z.to_nat (Z.min (len (balls f)) (capacity t - len (balls t))).

(** ** Boards of the specification's scenarios *)

Definition red : Ball := Color "red".
Definition blue : Ball := Color "blue".
Definition green : Ball := Color "green".

Definition tube (i : Z) (bs : list Ball) (c : Z) : Tube :=
  {| id := i; balls := bs; capacity := c |}.

Definition thresholds : gmap string Z := {[ "1" := 18; "2" := 13; "3" := 9 ]}.

Definition board (ts : list Tube) (level : option Z) : GameState :=
  {| tubes := ts; moves := 0; minMoves := Some 1; stars := thresholds;
     desiredLevel := level; solutionSteps := None |}.

Definition playing (gs : GameState) : Game :=
  {| currentGameState := gs; selectedTube := None; gameComplete := false;
     currentLevel := 1; calls := [] |}.

(** Scenario 1: two reds next to an empty tube. *)
Definition twoReds : GameState :=
  board [tube 0 [red; red] 4; tube 1 [] 4] None.

(** Scenario 2: an empty source. *)
Definition emptySource : GameState :=
  board [tube 0 [] 4; tube 1 [blue] 4] None.

(** Scenario 3: a full destination. *)
Definition fullDestination : GameState :=
  board [tube 0 [green] 4; tube 1 [green; green; green; green] 4] None.

(** A board within capacity: one ball is left behind where only three
    fit, and the destination ends exactly full. *)
Definition nearlyFull : GameState :=
  board [tube 0 [red; blue; green; red] 4; tube 1 [green] 4] None.
(** The ball counts of a board, tube by tube. *)
Definition counts (gs : GameState) : list Z := (λ t, len (balls t)) <$> tubes gs.

(** The count-based win of the specification: every count is the target. *)
Definition countWin (target : Z) (cs : list Z) : Prop :=
  Forall (λ c, c = target) cs.

(** The target fill as the specification words it: the level's
    [desiredLevel], and 2 for a level without one. *)
Definition targetFill (gs : GameState) : Z := default 2 (desiredLevel gs).

(** Two empty tubes under a level that asks for zero balls per tube. *)
Definition emptyAtLevelZero : GameState :=
  board [tube 0 [] 4; tube 1 [] 4] (Some 0).

(** Scenario 4: four tubes of two balls each, no level given. *)
Definition allAtTwo : GameState :=
  board [tube 0 [red; red] 4; tube 1 [blue; blue] 4;
         tube 2 [green; green] 4; tube 3 [red; blue] 4] None.

(** One bulk pour away from two balls in each tube. *)
Definition onePourFromSolved : GameState :=
  board [tube 0 [red; red; blue; blue] 4; tube 1 [] 2] (Some 2).

(** The star lookup as the specification words it, over the thresholds of
    ranks 1, 2 and 3. *)
Definition computeStars (moveCount t1 t2 t3 : Z) : nat :=
  if moveCount <=? t3 then 3%nat
  else if moveCount <=? t2 then 2%nat
  else if moveCount <=? t1 then 1%nat
  else 0%nat.

(** A level file with no tubes at all. *)
Definition noTubes (l : option Z) : Json.LevelData :=
  {| Json.levelId := l; Json.tubes := Some []; Json.colors := Some ["red"];
     Json.minMoves := Some 1; Json.stars := thresholds;
     Json.desiredLevel := None; Json.solutionSteps := None |}.


(** ** Hints and the star display *)

(** What [showHint] puts in the status line. *)
Inductive Hint : Type :=
| NoHintForLevel
| HintMove (fromTube toTube : Z)
| NoMoreHints
| HintThrows.

(** [showHint]: the step of [solutionSteps] at the index of the move
    counter.  [HintThrows] is the exception of reading a step that is
    [undefined], which a negative index gives. *)
Definition showHint (g : Game) : Hint :=
  match solutionSteps (currentGameState g) with
  | None => NoHintForLevel
  | Some solution =>
      let currentMoveIndex := moves (currentGameState g) in
      if currentMoveIndex <? Z.of_nat (length solution) then
        if currentMoveIndex <? 0 then HintThrows
        else
          match solution !! Z.to_nat currentMoveIndex with
          | Some (fromTube, toTube) => HintMove fromTube toTube
          | None => HintThrows
          end
      else NoMoreHints
  end.

(** [updateStars]: for [i] from 1 to 3, whether the element [star<i>] ends
    with the class [earned]. *)
Definition updateStars (g : Game) : list bool :=
  let m := moves (currentGameState g) in
  let st := stars (currentGameState g) in
  (λ i, le_number m (st !! i)) <$> ["1"; "2"; "3"].

(** ** The level index, progress and the level cache of the level manager *)

Module Manager.

(** One entry of [levelIndex.levels]. *)
Record LevelInfo : Type := {
  id : Z;
  file : string;
  name : string;
  difficulty : string;
  unlocked : bool;
  completed : bool;
  stars : Z;
  bestMoves : option Z
}.

(** The parsed [levels-index.json]; [difficulties] maps a difficulty to
    the ids of its [levels] array. *)
Record LevelIndex : Type := {
  version : string;
  levels : list LevelInfo;
  difficulties : gmap string (list Z)
}.

(** One entry of the progress object written by [saveProgress]. *)
Record SavedLevel : Type := {
  saved_id : Z;
  saved_unlocked : bool;
  saved_completed : bool;
  saved_stars : Z;
  saved_bestMoves : option Z
}.

Record Progress : Type := {
  progress_version : string;
  progress_levels : list SavedLevel
}.

(** The level manager: its fields, and the item [ballSortProgress] of the
    local storage, held as the object that [JSON.parse] gives back for the
    text that [JSON.stringify] wrote. *)
Record State : Type := {
  levelIndex : option LevelIndex;
  levelsCache : gmap Z Json.LevelData;
  currentLevel : option Json.LevelData;
  storage : option Progress
}.

Definition with_levels (ls : list LevelInfo) (idx : LevelIndex) : LevelIndex :=
  {| version := version idx; levels := ls; difficulties := difficulties idx |}.

Definition with_index (idx : option LevelIndex) (s : State) : State :=
  {| levelIndex := idx; levelsCache := levelsCache s;
     currentLevel := currentLevel s; storage := storage s |}.

Definition with_storage (p : option Progress) (s : State) : State :=
  {| levelIndex := levelIndex s; levelsCache := levelsCache s;
     currentLevel := currentLevel s; storage := p |}.

(** [levels.find(l => l.id === levelId)], with the index of the entry for
    the object reference, and [levels.findIndex] of the same test. *)
Definition find (levelId : Z) (ls : list LevelInfo) : option (nat * LevelInfo) :=
  list_find (λ l, id l = levelId) ls.

Definition findIndex (levelId : Z) (ls : list LevelInfo) : option nat :=
  fst <$> find levelId ls.

Definition getAllLevels (s : State) : list LevelInfo :=
  match levelIndex s with
  | Some idx => levels idx
  | None => []
  end.

Definition getLevelsByDifficulty (d : string) (s : State) : list LevelInfo :=
  match levelIndex s with
  | None => []
  | Some idx =>
      match difficulties idx !! d with
      | None => []
      | Some levelIds =>
          filter (λ level, id level ∈ levelIds) (levels idx)
      end
  end.

(** [getNextLevel] on the entries of the index: the entry after the first
    one with the id, with its position. *)
Definition nextOf (levelId : Z) (ls : list LevelInfo)
  : option (nat * LevelInfo) :=
  match findIndex levelId ls with
  | Some currentIndex =>
      if bool_decide (currentIndex < length ls - 1)%nat
      then (λ l, (S currentIndex, l)) <$> ls !! S currentIndex
      else None
  | None => None
  end.

Definition getNextLevel (currentLevelId : Z) (s : State) : option LevelInfo :=
  match levelIndex s with
  | None => None
  | Some idx => snd <$> nextOf currentLevelId (levels idx)
  end.

Definition getPreviousLevel (currentLevelId : Z) (s : State)
  : option LevelInfo :=
  match levelIndex s with
  | None => None
  | Some idx =>
      match findIndex currentLevelId (levels idx) with
      | Some currentIndex =>
          if bool_decide (0 < currentIndex)%nat
          then levels idx !! (currentIndex - 1)%nat
          else None
      | None => None
      end
  end.

Definition getLevelInfo (levelId : Z) (s : State) : option LevelInfo :=
  match levelIndex s with
  | None => None
  | Some idx => snd <$> find levelId (levels idx)
  end.

Definition saveLevel (level : LevelInfo) : SavedLevel :=
  {| saved_id := id level; saved_unlocked := unlocked level;
     saved_completed := completed level; saved_stars := stars level;
     saved_bestMoves := bestMoves level |}.

Definition saveProgress (s : State) : State :=
  match levelIndex s with
  | None => s
  | Some idx =>
      with_storage
        (Some {| progress_version := version idx;
                 progress_levels := saveLevel <$> levels idx |}) s
  end.

(** One round of the loop of [loadProgress]. *)
Definition applySaved (ls : list LevelInfo) (savedLevel : SavedLevel)
  : list LevelInfo :=
  match find (saved_id savedLevel) ls with
  | None => ls
  | Some (i, levelInfo) =>
      <[i := {| id := id levelInfo; file := file levelInfo;
                name := name levelInfo; difficulty := difficulty levelInfo;
                unlocked := saved_unlocked savedLevel;
                completed := saved_completed savedLevel;
                stars := saved_stars savedLevel;
                bestMoves := saved_bestMoves savedLevel |}]> ls
  end.

Definition loadProgress (s : State) : State :=
  match storage s, levelIndex s with
  | Some progress, Some idx =>
      if bool_decide (progress_version progress = version idx)
      then with_index
             (Some (with_levels
                      (foldl applySaved (levels idx) (progress_levels progress))
                      idx)) s
      else s
  | _, _ => s
  end.

(** The entry of a completed level: [Math.max] on the stars, and
    [bestMoves ? Math.min(bestMoves, moves) : moves], where a missing best
    and a best of 0 are both falsy. *)
Definition completeInfo (levelInfo : LevelInfo) (moves stars' : Z) : LevelInfo :=
  {| id := id levelInfo; file := file levelInfo; name := name levelInfo;
     difficulty := difficulty levelInfo; unlocked := unlocked levelInfo;
     completed := true;
     stars := Z.max (stars levelInfo) stars';
     bestMoves :=
       Some (match bestMoves levelInfo with
             | Some b => if b =? 0 then moves else Z.min b moves
             | None => moves
             end) |}.

Definition unlock (levelInfo : LevelInfo) : LevelInfo :=
  {| id := id levelInfo; file := file levelInfo; name := name levelInfo;
     difficulty := difficulty levelInfo; unlocked := true;
     completed := completed levelInfo; stars := stars levelInfo;
     bestMoves := bestMoves levelInfo |}.

Definition completeLevel (levelId moves stars' : Z) (s : State) : State :=
  match levelIndex s with
  | None => s
  | Some idx =>
      match find levelId (levels idx) with
      | None => s
      | Some (i, levelInfo) =>
          let ls1 := <[i := completeInfo levelInfo moves stars']> (levels idx) in
          let ls2 :=
            match nextOf levelId ls1 with
            | Some (j, nextLevel) => <[j := unlock nextLevel]> ls1
            | None => ls1
            end in
          saveProgress (with_index (Some (with_levels ls2 idx)) s)
      end
  end.

Definition resetInfo (level : LevelInfo) : LevelInfo :=
  {| id := id level; file := file level; name := name level;
     difficulty := difficulty level;
     unlocked := bool_decide (id level = 1);
     completed := false; stars := 0; bestMoves := None |}.

Definition resetProgress (s : State) : State :=
  match levelIndex s with
  | None => s
  | Some idx =>
      with_storage None
        (with_index (Some (with_levels (resetInfo <$> levels idx) idx)) s)
  end.

(** [loadLevel]: the level of the cache, or the file fetched by its name
    and validated; the first component is the level returned, [None] for
    an exception.  [fetch] gives the parsed file of a name, [None] when the
    response is not ok. *)
Definition loadLevel (fetch : string → option Json.LevelData) (levelId : Z)
    (s : State) : option Json.LevelData * State :=
  match levelIndex s with
  | None => (None, s)
  | Some idx =>
      match find levelId (levels idx) with
      | None => (None, s)
      | Some (_, levelInfo) =>
          match levelsCache s !! levelId with
          | Some cached =>
              (Some cached,
               {| levelIndex := levelIndex s; levelsCache := levelsCache s;
                  currentLevel := Some cached; storage := storage s |})
          | None =>
              match fetch (file levelInfo) with
              | None => (None, s)
              | Some levelData =>
                  if LevelManager.validateLevel (Some levelData)
                  then (Some levelData,
                        {| levelIndex := levelIndex s;
                           levelsCache := <[levelId := levelData]> (levelsCache s);
                           currentLevel := Some levelData;
                           storage := storage s |})
                  else (None, s)
              end
          end
      end
  end.

End Manager.

(** [BallSortGame.nextLevel], the same in both classes. *)
Definition nextLevel (m : Manager.State) (files : Z → option Json.LevelData)
    (g : Game) : Game :=
  match Manager.getNextLevel (currentLevel g) m with
  | Some next => loadLevel files (Manager.id next) g
  | None => g
  end.

(** ** The shuffle of the level converter *)

(** [[array[i], array[j]] = [array[j], array[i]]] for two positions of the
    array. *)
Definition swap {A : Type} (i j : nat) (array : list A) : list A :=
  match array !! i, array !! j with
  | Some x, Some y => <[j := x]> (<[i := y]> array)
  | _, _ => array
  end.

(** The loop of [shuffleArray] from position [i] down to 1.  The random
    source is [draw]: the number drawn at position [i], brought into
    0..i as [Math.floor(Math.random() * (i + 1))] is. *)
Fixpoint shuffleFrom {A : Type} (draw : nat → nat) (i : nat) (array : list A)
  : list A :=
  match i with
  | O => array
  | S i' => shuffleFrom draw i' (swap i (draw i mod (i + 1))%nat array)
  end.

Definition shuffleArray {A : Type} (draw : nat → nat) (array : list A)
  : list A :=
  shuffleFrom draw (length array - 1) array.

(** ** Notions for the properties of taps, stars and progress *)

(** The pending source, if any, is a tube of the board that holds balls. *)
Definition selectionOk (g : Game) : Prop :=
  ∀ s, selectedTube g = Some s →
       ∃ i t, findTube s (tubes (currentGameState g)) = Some (i, t) ∧
              balls t ≠ [].

(** How many completions a list of calls records. *)
Fixpoint completions (cs : list Call) : nat :=
  match cs with
  | [] => 0%nat
  | completeLevel _ _ _ :: cs' => S (completions cs')
  | showInvalidMove _ _ :: cs' => completions cs'
  end.

(** The reasons of the invalid-move feedback in a list of calls. *)
Definition reasons (cs : list Call) : list string :=
  omap (λ c, match c with
             | showInvalidMove _ r => Some r
             | completeLevel _ _ _ => None
             end) cs.

(** How many stars are lit. *)
Definition lit (bs : list bool) : nat := length (filter Is_true bs).

(** The fields of an index entry that progress never touches. *)
Definition static (l : Manager.LevelInfo) : Z * string * string * string :=
  (Manager.id l, Manager.file l, Manager.name l, Manager.difficulty l).

(** A tube of a level file seen from the board that was copied from it. *)
Definition tubeData (t : Tube) : Json.TubeData :=
  {| Json.id := Some (id t); Json.balls := Some (balls t);
     Json.capacity := Some (capacity t) |}.

(** A level file with [n] more balls of one colour on top of every tube. *)
Definition addBalls (n : nat) (c : string) (d : Json.LevelData)
  : Json.LevelData :=
  {| Json.levelId := Json.levelId d;
     Json.tubes :=
       fmap (M := list)
         (λ t, {| Json.id := Json.id t;
                  Json.balls := (λ bs, bs ++ replicate n (Color c))
                                  <$> Json.balls t;
                  Json.capacity := Json.capacity t |})
       <$> Json.tubes d;
     Json.colors := Json.colors d; Json.minMoves := Json.minMoves d;
     Json.stars := Json.stars d; Json.desiredLevel := Json.desiredLevel d;
     Json.solutionSteps := Json.solutionSteps d |}.

(** The hint for the step at a position of the solution. *)
Definition hintAt (steps : list (Z * Z)) (k : nat) : Hint :=
  match steps !! k with
  | Some (x, y) => HintMove x y
  | None => NoMoreHints
  end.

(** A level file with two steps of solution, scenario 6. *)
Definition twoSteps : GameState :=
  {| tubes := [tube 0 [red; red] 4; tube 1 [] 4; tube 2 [] 4];
     moves := 0; minMoves := Some 2; stars := thresholds;
     desiredLevel := None; solutionSteps := Some [(0, 1); (1, 2)] |}.

(** A level file of two tubes. *)
Definition twoTubes : Json.LevelData :=
  {| Json.levelId := Some 1;
     Json.tubes := Some [tubeData (tube 0 [red; blue] 2);
                         tubeData (tube 1 [] 2)];
     Json.colors := Some ["red"; "blue"];
     Json.minMoves := Some 1; Json.stars := thresholds;
     Json.desiredLevel := Some 1; Json.solutionSteps := None |}.

(** Every level of the cache passes [validateLevel]. *)
Definition cacheValid (s : Manager.State) : Prop :=
  ∀ k d, Manager.levelsCache s !! k = Some d →
         LevelManager.validateLevel (Some d) = true.

(** The level files by level id, through the file names of the index. *)
Definition filesOf (ls : list Manager.LevelInfo)
    (fetch : string → option Json.LevelData) (levelId : Z)
  : option Json.LevelData :=
  match Manager.find levelId ls with
  | Some (_, levelInfo) => fetch (Manager.file levelInfo)
  | None => None
  end.

(** The progress fields of an index entry after a reset. *)
Definition isReset (l : Manager.LevelInfo) : Prop :=
  Manager.unlocked l = bool_decide (Manager.id l = 1) ∧
  Manager.completed l = false ∧ Manager.stars l = 0 ∧
  Manager.bestMoves l = None.

(** An index of three levels, the first one unlocked, and a manager that
    has loaded it. *)
Definition entry (i : Z) (open : bool) : Manager.LevelInfo :=
  {| Manager.id := i; Manager.file := "level.json"; Manager.name := "Level";
     Manager.difficulty := "easy"; Manager.unlocked := open;
     Manager.completed := false; Manager.stars := 0;
     Manager.bestMoves := None |}.

Definition threeLevels : Manager.LevelIndex :=
  {| Manager.version := "1.0.0";
     Manager.levels := [entry 1 true; entry 2 false; entry 3 false];
     Manager.difficulties := {[ "easy" := [1; 2; 3] ]} |}.

Definition manager (idx : Manager.LevelIndex) : Manager.State :=
  {| Manager.levelIndex := Some idx; Manager.levelsCache := ∅;
     Manager.currentLevel := None; Manager.storage := None |}.

(** The index of three levels after level 1 was completed in 7 moves with
    3 stars. *)
Definition afterLevelOne : Manager.LevelIndex :=
  {| Manager.version := "1.0.0";
     Manager.levels :=
       [ {| Manager.id := 1; Manager.file := "level.json";
            Manager.name := "Level"; Manager.difficulty := "easy";
            Manager.unlocked := true; Manager.completed := true;
            Manager.stars := 3; Manager.bestMoves := Some 7 |};
         entry 2 true; entry 3 false ];
     Manager.difficulties := {[ "easy" := [1; 2; 3] ]} |}.

(** * Properties *)

(** ** The array primitives *)

Lemma pop_snoc (l : list Ball) (b : Ball) : pop (l ++ [b]) = (b, l).
Proof.
  unfold pop. rewrite last_snoc. f_equal. apply removelast_last.
Qed.

Lemma len_nil_iff (bs : list Ball) : len bs = 0 ↔ bs = [].
Proof.
  unfold len. destruct bs; simpl; split; intros H; done || lia.
Qed.

Lemma snoc_of_nonempty (bs : list Ball) :
  bs ≠ [] → ∃ l b, bs = l ++ [b].
Proof.
  destruct bs as [|x bs] using rev_ind; [done|]. intros _. by exists bs, x.
Qed.

Lemma with_balls_id (t : Tube) : with_balls (balls t) t = t.
Proof. by destruct t. Qed.

Lemma with_balls_twice (bs bs' : list Ball) (t : Tube) :
  with_balls bs (with_balls bs' t) = with_balls bs t.
Proof. done. Qed.

(** ** Tube lookup *)

Lemma findTube_Some (a : Z) (ts : list Tube) (i : nat) (t : Tube) :
  findTube a ts = Some (i, t) → ts !! i = Some t ∧ id t = a.
Proof.
  unfold findTube. intros H. apply list_find_Some in H as (? & ? & _). done.
Qed.

(** Two lookups in one array give one object exactly when the ids asked
    for are the same. *)
Lemma findTube_alias (a b : Z) (ts : list Tube) (i j : nat) (f t : Tube) :
  findTube a ts = Some (i, f) → findTube b ts = Some (j, t) →
  (i = j ↔ a = b).
Proof.
  intros Ha Hb. split.
  - intros ->. apply findTube_Some in Ha as [Hi <-].
    apply findTube_Some in Hb as [Hj <-]. congruence.
  - intros ->. congruence.
Qed.

(** ** One ball from tube to tube *)

Lemma moveBall_other (i j : nat) (ts : list Tube) (f t : Tube)
    (l : list Ball) (b : Ball) :
  i ≠ j → ts !! i = Some f → ts !! j = Some t → balls f = l ++ [b] →
  moveBall i j ts =
    <[j := with_balls (balls t ++ [b]) t]> (<[i := with_balls l f]> ts).
Proof.
  intros Hij Hi Hj Hb. unfold moveBall. rewrite Hi, Hb, pop_snoc.
  by rewrite list_lookup_insert_ne, Hj.
Qed.

(** Source and destination one object: the ball popped is pushed back. *)
Lemma moveBall_same (i : nat) (ts : list Tube) (f : Tube) :
  ts !! i = Some f → balls f ≠ [] → moveBall i i ts = ts.
Proof.
  intros Hi Hne. destruct (snoc_of_nonempty _ Hne) as (l & b & Hb).
  unfold moveBall. rewrite Hi, Hb, pop_snoc.
  rewrite list_lookup_insert_eq by (by eapply lookup_lt_Some).
  rewrite list_insert_insert_eq. apply list_insert_id.
  rewrite Hi. f_equal. unfold with_balls, push; simpl.
  destruct f; simpl in *; by subst.
Qed.

(** The loop of the bulk pour in closed form: the last [length moved] balls
    of the source end up on the destination, the topmost first. *)
Lemma pour_loop (i j : nat) (moved : list Ball) :
  i ≠ j → ∀ (ts : list Tube) (f t : Tube) (keep : list Ball),
  ts !! i = Some f → ts !! j = Some t → balls f = keep ++ moved →
  for_loop (length moved) (moveBall i j) ts =
    <[j := with_balls (balls t ++ rev moved) t]>
      (<[i := with_balls keep f]> ts).
Proof.
  intros Hij. induction moved as [|b m IH] using rev_ind;
    intros ts f t keep Hi Hj Hb.
  - simpl. rewrite !app_nil_r in *. rewrite <- Hb, !with_balls_id.
    by rewrite (list_insert_id ts i f), (list_insert_id ts j t).
  - rewrite length_app, Nat.add_1_r. simpl.
    rewrite (moveBall_other i j ts f t (keep ++ m) b) by (by rewrite <- ?app_assoc).
    assert (Hli : (i < length ts)%nat) by (by eapply lookup_lt_Some).
    assert (Hlj : (j < length ts)%nat) by (by eapply lookup_lt_Some).
    rewrite (IH _ (with_balls (keep ++ m) f) (with_balls (balls t ++ [b]) t) keep).
    + simpl. rewrite rev_unit, <- app_assoc. simpl.
      rewrite !with_balls_twice.
      rewrite (list_insert_insert_ne _ i j) by done.
      by rewrite !list_insert_insert_eq.
    + rewrite list_lookup_insert_ne by done.
      by rewrite list_lookup_insert_eq.
    + rewrite list_lookup_insert_eq; [done|]. by rewrite length_insert.
    + done.
Qed.

(** ** Conservation and capacity under a transfer *)

Lemma allBalls_insert (ts : list Tube) (i : nat) (t t' : Tube) :
  ts !! i = Some t →
  allBalls (<[i := t']> ts) ++ balls t ≡ₚ allBalls ts ++ balls t'.
Proof.
  unfold allBalls. revert i.
  induction ts as [|u ts IH]; intros [|i] Hi; simplify_eq/=.
  - solve_Permutation.
  - rewrite <- !app_assoc. by rewrite (IH i Hi).
Qed.

Lemma allBalls_transfer (i j : nat) (ts : list Tube) (f t : Tube)
    (keep moved moved' : list Ball) :
  i ≠ j → ts !! i = Some f → ts !! j = Some t →
  balls f = keep ++ moved → moved' ≡ₚ moved →
  allBalls (<[j := with_balls (balls t ++ moved') t]>
              (<[i := with_balls keep f]> ts)) ≡ₚ allBalls ts.
Proof.
  intros Hij Hi Hj Hb Hm.
  pose proof (allBalls_insert (<[i := with_balls keep f]> ts) j t
    (with_balls (balls t ++ moved') t)) as H2.
  rewrite list_lookup_insert_ne in H2 by done. specialize (H2 Hj).
  pose proof (allBalls_insert ts i f (with_balls keep f) Hi) as H1.
  simpl in H1, H2. rewrite Hb in H1.
  apply (inj (.++ (balls t ++ keep ++ moved))).
  rewrite (app_assoc _ (balls t)), H2, Hm.
  transitivity ((allBalls (<[i:=with_balls keep f]> ts) ++ keep ++ moved)
                  ++ balls t ++ moved); [solve_Permutation|].
  rewrite H1. solve_Permutation.
Qed.

Lemma fits_transfer (i j : nat) (ts : list Tube) (f t : Tube)
    (keep moved moved' : list Ball) :
  Forall fits ts → ts !! i = Some f → balls f = keep ++ moved →
  len (balls t ++ moved') ≤ capacity t →
  Forall fits (<[j := with_balls (balls t ++ moved') t]>
                 (<[i := with_balls keep f]> ts)).
Proof.
  intros Hall Hi Hb Hcap.
  apply Forall_insert; [apply Forall_insert; [done|] | done].
  assert (Hf : fits f) by (eapply Forall_lookup_1; eauto).
  unfold fits, len in *; simpl. rewrite Hb, length_app in Hf. lia.
Qed.

(** ** Validation *)

Lemma Bulk_isValidMove_Valid (f t : Tube) :
  Bulk.isValidMove f t = Valid ↔
  balls f ≠ [] ∧ id f ≠ id t ∧ len (balls t) < capacity t.
Proof.
  unfold Bulk.isValidMove. rewrite <- len_nil_iff.
  destruct (Z.eqb_spec (len (balls f)) 0); [intuition done|].
  destruct (Z.eqb_spec (id f) (id t)); [intuition done|].
  destruct (Z.leb_spec (capacity t) (len (balls t))); [|intuition done].
  split; [done|]. intros (_ & _ & ?). lia.
Qed.

Lemma Single_isValidMove_Valid (f t : Tube) :
  Single.isValidMove f t = Valid ↔
  balls f ≠ [] ∧ len (balls t) < capacity t.
Proof.
  unfold Single.isValidMove. rewrite <- len_nil_iff.
  destruct (Z.eqb_spec (len (balls f)) 0); [intuition done|].
  destruct (Z.leb_spec (capacity t) (len (balls t))); [|intuition done].
  split; [done|]. intros (_ & ?). lia.
Qed.

Lemma accepted_true (v : Tube → Tube → MoveResult) (a b : Z) (gs : GameState) :
  accepted v a b gs = true →
  ∃ i j f t, findTube a (tubes gs) = Some (i, f) ∧
             findTube b (tubes gs) = Some (j, t) ∧ v f t = Valid.
Proof.
  unfold accepted. intros H.
  destruct (findTube a (tubes gs)) as [[i f]|]; [|done].
  destruct (findTube b (tubes gs)) as [[j t]|]; [|done].
  destruct (v f t) eqn:Hv; [|done]. by exists i, j, f, t.
Qed.

(** ** What [attemptMove] leaves behind *)

Lemma Bulk_checkWinCondition_state (g : Game) :
  currentGameState (Bulk.checkWinCondition g) = currentGameState g.
Proof. unfold Bulk.checkWinCondition. by case_match. Qed.

Lemma Single_checkWinCondition_state (g : Game) :
  currentGameState (Single.checkWinCondition g) = currentGameState g.
Proof. unfold Single.checkWinCondition. by case_match. Qed.

Lemma Bulk_attemptMove_applied (g : Game) (a b : Z) (i j : nat) (f t : Tube) :
  findTube a (tubes (currentGameState g)) = Some (i, f) →
  findTube b (tubes (currentGameState g)) = Some (j, t) →
  Bulk.isValidMove f t = Valid →
  currentGameState (Bulk.attemptMove a b g) =
    Bulk.performMove i j (currentGameState g).
Proof.
  intros Ha Hb Hv. unfold Bulk.attemptMove. rewrite Ha, Hb, Hv.
  by rewrite Bulk_checkWinCondition_state.
Qed.

Lemma Bulk_attemptMove_rejected (g : Game) (a b : Z) :
  accepted Bulk.isValidMove a b (currentGameState g) = false →
  currentGameState (Bulk.attemptMove a b g) = currentGameState g.
Proof.
  unfold accepted, Bulk.attemptMove.
  destruct (findTube a _) as [[i f]|]; [|done].
  destruct (findTube b _) as [[j t]|]; [|done].
  by destruct (Bulk.isValidMove f t).
Qed.

Lemma Single_attemptMove_applied (g : Game) (a b : Z) (i j : nat) (f t : Tube) :
  findTube a (tubes (currentGameState g)) = Some (i, f) →
  findTube b (tubes (currentGameState g)) = Some (j, t) →
  Single.isValidMove f t = Valid →
  currentGameState (Single.attemptMove a b g) =
    Single.performMove i j (currentGameState g).
Proof.
  intros Ha Hb Hv. unfold Single.attemptMove. rewrite Ha, Hb, Hv.
  by rewrite Single_checkWinCondition_state.
Qed.

Lemma Single_attemptMove_rejected (g : Game) (a b : Z) :
  accepted Single.isValidMove a b (currentGameState g) = false →
  currentGameState (Single.attemptMove a b g) = currentGameState g.
Proof.
  unfold accepted, Single.attemptMove.
  destruct (findTube a _) as [[i f]|]; [|done].
  destruct (findTube b _) as [[j t]|]; [|done].
  by destruct (Single.isValidMove f t).
Qed.

(** ** The pours in closed form *)

Lemma poured_le (f t : Tube) : (poured f t ≤ length (balls f))%nat.
Proof. unfold poured, len. lia. Qed.

Lemma Bulk_performMove_tubes (gs : GameState) (i j : nat) (f t : Tube) :
  i ≠ j → tubes gs !! i = Some f → tubes gs !! j = Some t →
  let n := poured f t in
  let keep := take (length (balls f) - n) (balls f) in
  let moved := drop (length (balls f) - n) (balls f) in
  tubes (Bulk.performMove i j gs) =
    <[j := with_balls (balls t ++ rev moved) t]>
      (<[i := with_balls keep f]> (tubes gs)).
Proof.
  intros Hij Hi Hj n keep moved. unfold Bulk.performMove.
  rewrite Hi, Hj. simpl.
  assert (Hn : Z.to_nat (Bulk.actualBallsToMove f t) = length moved).
  { unfold moved. rewrite length_drop. pose proof (poured_le f t).
    unfold Bulk.actualBallsToMove. fold (poured f t). unfold n. lia. }
  rewrite Hn. apply pour_loop; try done.
  unfold keep, moved. by rewrite take_drop.
Qed.

Lemma Single_performMove_tubes (gs : GameState) (i j : nat) (f t : Tube)
    (l : list Ball) (b : Ball) :
  i ≠ j → tubes gs !! i = Some f → tubes gs !! j = Some t →
  balls f = l ++ [b] →
  tubes (Single.performMove i j gs) =
    <[j := with_balls (balls t ++ [b]) t]>
      (<[i := with_balls l f]> (tubes gs)).
Proof. intros. simpl. by eapply moveBall_other. Qed.

Lemma Single_performMove_same (gs : GameState) (i : nat) (f : Tube) :
  tubes gs !! i = Some f → balls f ≠ [] →
  tubes (Single.performMove i i gs) = tubes gs.
Proof. intros. simpl. by eapply moveBall_same. Qed.

(** ** The bulk pour *)

(** C2.  In the class with the bulk pour, a move from a non-empty tube to
    another tube with room transfers exactly
    [min (length from.balls) (capacity to - length to.balls)] balls: that
    many are taken off the top of the source and appear on top of the
    destination in reverse order, the former top ball lowest. *)
Theorem bulk_pour_transfers (g : Game) (a b : Z) (i j : nat) (f t : Tube) :
  findTube a (tubes (currentGameState g)) = Some (i, f) →
  findTube b (tubes (currentGameState g)) = Some (j, t) →
  a ≠ b → balls f ≠ [] → len (balls t) < capacity t →
  let n := Z.to_nat (Z.min (len (balls f)) (capacity t - len (balls t))) in
  let keep := take (length (balls f) - n) (balls f) in
  let moved := drop (length (balls f) - n) (balls f) in
  let ts' := tubes (currentGameState (Bulk.attemptMove a b g)) in
  balls f = keep ++ moved ∧ length moved = n ∧ (1 ≤ n)%nat ∧
  ts' = <[j := with_balls (balls t ++ rev moved) t]>
          (<[i := with_balls keep f]> (tubes (currentGameState g))) ∧
  ts' !! i = Some (with_balls keep f) ∧
  ts' !! j = Some (with_balls (balls t ++ rev moved) t).
Proof.
  intros Ha Hb Hab Hne Hroom n keep moved ts'.
  destruct (findTube_Some _ _ _ _ Ha) as [Hi Hida].
  destruct (findTube_Some _ _ _ _ Hb) as [Hj Hidb].
  assert (Hij : i ≠ j) by (by rewrite (findTube_alias _ _ _ _ _ _ _ Ha Hb)).
  assert (Hv : Bulk.isValidMove f t = Valid).
  { apply Bulk_isValidMove_Valid. repeat split; [done|congruence|done]. }
  assert (Hts : ts' = <[j := with_balls (balls t ++ rev moved) t]>
          (<[i := with_balls keep f]> (tubes (currentGameState g)))).
  { unfold ts'. rewrite (Bulk_attemptMove_applied g a b i j f t) by done.
    by apply Bulk_performMove_tubes. }
  assert (Hlen : (n ≤ length (balls f))%nat) by apply poured_le.
  assert (Hpos : (1 ≤ n)%nat).
  { unfold n, len in *. destruct (balls f); simpl in *; [done|lia]. }
  split; [by unfold keep, moved; rewrite take_drop|].
  split; [unfold moved; rewrite length_drop; lia|].
  split; [done|]. split; [done|]. rewrite Hts.
  assert (Hli : (i < length (tubes (currentGameState g)))%nat)
    by (by eapply lookup_lt_Some).
  assert (Hlj : (j < length (tubes (currentGameState g)))%nat)
    by (by eapply lookup_lt_Some).
  split.
  - rewrite list_lookup_insert_ne by done. by rewrite list_lookup_insert_eq.
  - rewrite list_lookup_insert_eq; [done|]. by rewrite length_insert.
Qed.

(** Scenario 1 of the specification: both reds go over in one move. *)
Lemma bulk_pour_two_reds :
  tubes (currentGameState (Bulk.attemptMove 0 1 (playing twoReds))) =
    [tube 0 [] 4; tube 1 [red; red] 4].
Proof.
  pose proof (bulk_pour_transfers (playing twoReds) 0 1 0%nat 1%nat
    (tube 0 [red; red] 4) (tube 1 [] 4)) as H.
  destruct H as (_ & _ & _ & H & _); [reflexivity | reflexivity | lia
    | discriminate | vm_compute; reflexivity | ].
  exact H.
Defined.

(** ** Rejections *)

(** C3.  For two distinct tube ids that resolve, the class with the bulk
    pour rejects an empty source first, with "No balls to move", whatever
    the destination; it rejects a destination whose count has reached its
    capacity with "Destination tube is full"; a rejection leaves the whole
    board, tubes and move counter, as it was; and a non-empty source and a
    destination with room are all it takes to be accepted, whatever the
    colours of the balls. *)
Theorem rejections_in_order (g : Game) (a b : Z) (i j : nat) (f t : Tube) :
  findTube a (tubes (currentGameState g)) = Some (i, f) →
  findTube b (tubes (currentGameState g)) = Some (j, t) →
  a ≠ b →
  (balls f = [] →
     Bulk.attemptMove a b g = call (showInvalidMove b "No balls to move") g) ∧
  (balls f ≠ [] → capacity t ≤ len (balls t) →
     Bulk.attemptMove a b g =
       call (showInvalidMove b "Destination tube is full") g) ∧
  (∀ reason, Bulk.isValidMove f t = Invalid reason →
     currentGameState (Bulk.attemptMove a b g) = currentGameState g) ∧
  (balls f ≠ [] → len (balls t) < capacity t →
     Bulk.isValidMove f t = Valid ∧
     moves (currentGameState (Bulk.attemptMove a b g)) =
       moves (currentGameState g) + 1).
Proof.
  intros Ha Hb Hab.
  destruct (findTube_Some _ _ _ _ Ha) as [Hi Hida].
  destruct (findTube_Some _ _ _ _ Hb) as [Hj Hidb].
  assert (Hid : id f ≠ id t) by congruence.
  unfold Bulk.attemptMove. rewrite Ha, Hb.
  repeat split.
  - intros He. unfold Bulk.isValidMove. by rewrite He.
  - intros Hne Hfull. unfold Bulk.isValidMove.
    rewrite <- len_nil_iff in Hne.
    destruct (Z.eqb_spec (len (balls f)) 0); [done|].
    destruct (Z.eqb_spec (id f) (id t)); [done|].
    by destruct (Z.leb_spec (capacity t) (len (balls t))); [|lia].
  - intros reason ->. done.
  - by apply Bulk_isValidMove_Valid.
  - assert (Hv : Bulk.isValidMove f t = Valid)
      by (by apply Bulk_isValidMove_Valid).
    rewrite Hv, Bulk_checkWinCondition_state. simpl.
    unfold Bulk.performMove. by rewrite Hi, Hj.
Qed.

(** Scenarios 2 and 3 of the specification. *)
Lemma rejections_of_the_scenarios :
  Bulk.attemptMove 0 1 (playing emptySource) =
    call (showInvalidMove 1 "No balls to move") (playing emptySource) ∧
  Bulk.attemptMove 0 1 (playing fullDestination) =
    call (showInvalidMove 1 "Destination tube is full")
      (playing fullDestination).
Proof.
  split.
  - refine (proj1 (rejections_in_order (playing emptySource) 0 1 0%nat 1%nat
      (tube 0 [] 4) (tube 1 [blue] 4) _ _ _) _);
      [reflexivity | reflexivity | lia | reflexivity].
  - refine (proj1 (proj2 (rejections_in_order (playing fullDestination) 0 1
      0%nat 1%nat (tube 0 [green] 4) (tube 1 [green; green; green; green] 4)
      _ _ _)) _ _);
      [reflexivity | reflexivity | lia | discriminate
      | vm_compute; discriminate].
Defined.

(** ** The move counter *)

(** C4.  In both classes the move counter goes up by exactly one when a
    move request is applied, however many balls the pour carried, and stays
    as it was when the request is rejected or an id does not resolve. *)
Theorem move_counter_steps (g : Game) (a b : Z) :
  moves (currentGameState (Bulk.attemptMove a b g)) =
    (if accepted Bulk.isValidMove a b (currentGameState g)
     then moves (currentGameState g) + 1
     else moves (currentGameState g)) ∧
  moves (currentGameState (Single.attemptMove a b g)) =
    (if accepted Single.isValidMove a b (currentGameState g)
     then moves (currentGameState g) + 1
     else moves (currentGameState g)).
Proof.
  split.
  - destruct (accepted _ a b _) eqn:Hacc.
    + apply accepted_true in Hacc as (i & j & f & t & Ha & Hb & Hv).
      rewrite (Bulk_attemptMove_applied g a b i j f t) by done.
      destruct (findTube_Some _ _ _ _ Ha) as [Hi _].
      destruct (findTube_Some _ _ _ _ Hb) as [Hj _].
      unfold Bulk.performMove. by rewrite Hi, Hj.
    + by rewrite Bulk_attemptMove_rejected.
  - destruct (accepted _ a b _) eqn:Hacc.
    + apply accepted_true in Hacc as (i & j & f & t & Ha & Hb & Hv).
      by rewrite (Single_attemptMove_applied g a b i j f t).
    + by rewrite Single_attemptMove_rejected.
Qed.

(** The requests a class applies, in terms of the board. *)
Lemma accepted_Bulk (a b : Z) (gs : GameState) :
  accepted Bulk.isValidMove a b gs = true ↔
  ∃ i j f t, findTube a (tubes gs) = Some (i, f) ∧
             findTube b (tubes gs) = Some (j, t) ∧
             balls f ≠ [] ∧ a ≠ b ∧ len (balls t) < capacity t.
Proof.
  split.
  - intros (i & j & f & t & Ha & Hb & Hv)%accepted_true.
    apply Bulk_isValidMove_Valid in Hv as (? & ? & ?).
    exists i, j, f, t. repeat split; try done. intros ->.
    rewrite Ha in Hb. congruence.
  - intros (i & j & f & t & Ha & Hb & Hne & Hab & Hroom).
    unfold accepted. rewrite Ha, Hb.
    destruct (findTube_Some _ _ _ _ Ha) as [_ Hida].
    destruct (findTube_Some _ _ _ _ Hb) as [_ Hidb].
    assert (Hv : Bulk.isValidMove f t = Valid).
    { apply Bulk_isValidMove_Valid. repeat split; [done|congruence|done]. }
    by rewrite Hv.
Qed.

Lemma accepted_Single (a b : Z) (gs : GameState) :
  accepted Single.isValidMove a b gs = true ↔
  ∃ i j f t, findTube a (tubes gs) = Some (i, f) ∧
             findTube b (tubes gs) = Some (j, t) ∧
             balls f ≠ [] ∧ len (balls t) < capacity t.
Proof.
  split.
  - intros (i & j & f & t & Ha & Hb & Hv)%accepted_true.
    apply Single_isValidMove_Valid in Hv as (? & ?).
    by exists i, j, f, t.
  - intros (i & j & f & t & Ha & Hb & Hne & Hroom).
    unfold accepted. rewrite Ha, Hb.
    assert (Hv : Single.isValidMove f t = Valid)
      by (by apply Single_isValidMove_Valid).
    by rewrite Hv.
Qed.

(** Scenario 1: two balls poured, one move counted. *)
Example two_balls_one_move :
  moves (currentGameState (Bulk.attemptMove 0 1 (playing twoReds))) = 1.
Proof. reflexivity. Qed.

(** Scenario 2: the rejected move is not counted. *)
Example rejected_not_counted :
  moves (currentGameState (Bulk.attemptMove 0 1 (playing emptySource))) = 0.
Proof. reflexivity. Qed.

(** ** Invariants of the board *)

Lemma Bulk_attemptMove_fits (g : Game) (a b : Z) :
  Forall fits (tubes (currentGameState g)) →
  Forall fits (tubes (currentGameState (Bulk.attemptMove a b g))).
Proof.
  intros Hall. destruct (accepted Bulk.isValidMove a b (currentGameState g))
    eqn:Hacc; [|by rewrite Bulk_attemptMove_rejected].
  apply accepted_true in Hacc as (i & j & f & t & Ha & Hb & Hv).
  rewrite (Bulk_attemptMove_applied g a b i j f t) by done.
  destruct (findTube_Some _ _ _ _ Ha) as [Hi Hida].
  destruct (findTube_Some _ _ _ _ Hb) as [Hj Hidb].
  apply Bulk_isValidMove_Valid in Hv as (Hne & Hid & Hroom).
  assert (Hij : i ≠ j).
  { rewrite (findTube_alias _ _ _ _ _ _ _ Ha Hb). congruence. }
  rewrite (Bulk_performMove_tubes _ i j f t) by done.
  pose proof (poured_le f t) as Hle.
  eapply fits_transfer; [done | done | by rewrite take_drop |].
  unfold len. rewrite length_app, length_rev, length_drop.
  unfold poured, len in *. lia.
Qed.

Lemma Single_attemptMove_fits (g : Game) (a b : Z) :
  Forall fits (tubes (currentGameState g)) →
  Forall fits (tubes (currentGameState (Single.attemptMove a b g))).
Proof.
  intros Hall. destruct (accepted Single.isValidMove a b (currentGameState g))
    eqn:Hacc; [|by rewrite Single_attemptMove_rejected].
  apply accepted_true in Hacc as (i & j & f & t & Ha & Hb & Hv).
  rewrite (Single_attemptMove_applied g a b i j f t) by done.
  destruct (findTube_Some _ _ _ _ Ha) as [Hi Hida].
  destruct (findTube_Some _ _ _ _ Hb) as [Hj Hidb].
  apply Single_isValidMove_Valid in Hv as (Hne & Hroom).
  destruct (decide (i = j)) as [->|Hij].
  - by rewrite (Single_performMove_same _ j f).
  - destruct (snoc_of_nonempty _ Hne) as (l & x & Hx).
    rewrite (Single_performMove_tubes _ i j f t l x) by done.
    eapply fits_transfer; [done | done | done |].
    unfold len in *. rewrite length_app. simpl. lia.
Qed.

(** C5.  If every tube of the board holds at most its capacity, then after
    any move request, applied or rejected, in either class, every tube
    still holds at most its capacity. *)
Theorem capacity_invariant (g : Game) (a b : Z) :
  Forall fits (tubes (currentGameState g)) →
  Forall fits (tubes (currentGameState (Bulk.attemptMove a b g))) ∧
  Forall fits (tubes (currentGameState (Single.attemptMove a b g))).
Proof.
  intros Hall. split;
    [by apply Bulk_attemptMove_fits | by apply Single_attemptMove_fits].
Qed.

Lemma capacity_kept_when_nearly_full :
  Forall fits (tubes (currentGameState
                 (Bulk.attemptMove 0 1 (playing nearlyFull)))) ∧
  Forall fits (tubes (currentGameState
                 (Single.attemptMove 0 1 (playing nearlyFull)))).
Proof.
  apply (capacity_invariant (playing nearlyFull) 0 1).
  simpl. repeat (apply Forall_cons_2; [unfold fits, len; simpl; lia|]).
  apply Forall_nil_2.
Defined.

(** Three of four balls fit; they arrive top first. *)
Example nearly_full_bulk :
  tubes (currentGameState (Bulk.attemptMove 0 1 (playing nearlyFull))) =
    [tube 0 [red] 4; tube 1 [green; red; green; blue] 4].
Proof. reflexivity. Qed.

Lemma Bulk_attemptMove_allBalls (g : Game) (a b : Z) :
  allBalls (tubes (currentGameState (Bulk.attemptMove a b g))) ≡ₚ
  allBalls (tubes (currentGameState g)).
Proof.
  destruct (accepted Bulk.isValidMove a b (currentGameState g))
    eqn:Hacc; [|by rewrite Bulk_attemptMove_rejected].
  apply accepted_true in Hacc as (i & j & f & t & Ha & Hb & Hv).
  rewrite (Bulk_attemptMove_applied g a b i j f t) by done.
  destruct (findTube_Some _ _ _ _ Ha) as [Hi Hida].
  destruct (findTube_Some _ _ _ _ Hb) as [Hj Hidb].
  apply Bulk_isValidMove_Valid in Hv as (Hne & Hid & Hroom).
  assert (Hij : i ≠ j).
  { rewrite (findTube_alias _ _ _ _ _ _ _ Ha Hb). congruence. }
  rewrite (Bulk_performMove_tubes _ i j f t) by done.
  eapply allBalls_transfer; [done | done | done | by rewrite take_drop |].
  symmetry. apply Permutation_rev.
Qed.

Lemma Single_attemptMove_allBalls (g : Game) (a b : Z) :
  allBalls (tubes (currentGameState (Single.attemptMove a b g))) ≡ₚ
  allBalls (tubes (currentGameState g)).
Proof.
  destruct (accepted Single.isValidMove a b (currentGameState g))
    eqn:Hacc; [|by rewrite Single_attemptMove_rejected].
  apply accepted_true in Hacc as (i & j & f & t & Ha & Hb & Hv).
  rewrite (Single_attemptMove_applied g a b i j f t) by done.
  destruct (findTube_Some _ _ _ _ Ha) as [Hi Hida].
  destruct (findTube_Some _ _ _ _ Hb) as [Hj Hidb].
  apply Single_isValidMove_Valid in Hv as (Hne & Hroom).
  destruct (decide (i = j)) as [->|Hij].
  - by rewrite (Single_performMove_same _ j f).
  - destruct (snoc_of_nonempty _ Hne) as (l & x & Hx).
    rewrite (Single_performMove_tubes _ i j f t l x) by done.
    by eapply allBalls_transfer.
Qed.

(** C6.  In either class, after any move request, applied or rejected, the
    balls of all tubes taken together are a rearrangement of the balls
    before it: none is created and none is lost. *)
Theorem balls_conserved (g : Game) (a b : Z) :
  allBalls (tubes (currentGameState (Bulk.attemptMove a b g))) ≡ₚ
    allBalls (tubes (currentGameState g)) ∧
  allBalls (tubes (currentGameState (Single.attemptMove a b g))) ≡ₚ
    allBalls (tubes (currentGameState g)).
Proof.
  split; [apply Bulk_attemptMove_allBalls | apply Single_attemptMove_allBalls].
Qed.

(** ** The win check *)

Lemma allTubesAtDesiredLevel_counts (gs : GameState) :
  Bulk.allTubesAtDesiredLevel gs = true ↔
  countWin (or_else (desiredLevel gs) 2) (counts gs).
Proof.
  unfold Bulk.allTubesAtDesiredLevel, countWin, counts.
  induction (tubes gs) as [|t ts IH]; simpl.
  - split; [intros _; apply Forall_nil_2 | done].
  - by rewrite andb_true_iff, Forall_cons, IH, Z.eqb_eq.
Qed.

(** C1, as stated, fails: with [desiredLevel: 0] every empty tube holds
    exactly the level's [desiredLevel], and the check does not complete the
    level, because [0 || 2] is 2. *)
Lemma level_zero_is_not_the_target :
  ¬ (Bulk.allTubesAtDesiredLevel emptyAtLevelZero = true ↔
     countWin (targetFill emptyAtLevelZero) (counts emptyAtLevelZero)) ∧
  gameComplete (Bulk.checkWinCondition (playing emptyAtLevelZero)) = false.
Proof.
  split; [|reflexivity]. intros [_ H].
  assert (Hfalse : Bulk.allTubesAtDesiredLevel emptyAtLevelZero = false)
    by reflexivity.
  rewrite H in Hfalse; [discriminate|].
  repeat (apply Forall_cons_2; [reflexivity|]). apply Forall_nil_2.
Qed.

(** C1, amended.  [checkWinCondition] completes the level exactly when the
    ball count of every tube equals the target, which is the level's
    [desiredLevel] when that is there and not 0, and 2 when it is missing
    or 0; the decision is a function of that target and of the tube ball
    counts alone. *)
Theorem count_based_win (g : Game) :
  let gs := currentGameState g in
  let target :=
    match desiredLevel gs with
    | None | Some 0 => 2
    | Some d => d
    end in
  (Bulk.allTubesAtDesiredLevel gs = true ↔ countWin target (counts gs)) ∧
  Bulk.allTubesAtDesiredLevel gs = forallb (λ c, c =? target) (counts gs) ∧
  Bulk.checkWinCondition g =
    (if forallb (λ c, c =? target) (counts gs)
     then handleLevelComplete g else g).
Proof.
  intros gs target.
  assert (Ht : or_else (desiredLevel gs) 2 = target).
  { unfold target, or_else. by destruct (desiredLevel gs) as [[| |]|]. }
  assert (Hb : Bulk.allTubesAtDesiredLevel gs =
               forallb (λ c, c =? target) (counts gs)).
  { unfold Bulk.allTubesAtDesiredLevel, counts. rewrite Ht.
    induction (tubes gs) as [|t ts IH]; [done|]. simpl. by rewrite IH. }
  split; [by rewrite allTubesAtDesiredLevel_counts, Ht|].
  split; [done|]. unfold Bulk.checkWinCondition. fold gs. by rewrite Hb.
Qed.

(** Scenario 4: counts [2,2,2,2] with no [desiredLevel] are a win, of
    whatever colours the balls are. *)
Example all_at_two_wins :
  Bulk.allTubesAtDesiredLevel allAtTwo = true ∧
  gameComplete (Bulk.checkWinCondition (playing allAtTwo)) = true.
Proof. split; reflexivity. Qed.

(** ** Stars *)

(** C8.  With the three thresholds present, the stars computed at
    completion are 3 when the move count is at most the threshold of rank
    3, else 2 when it is at most that of rank 2, else 1 when it is at most
    that of rank 1, else 0; [handleLevelComplete] reports that number. *)
Theorem stars_most_generous_first (m : Z) (st : gmap string Z)
    (t1 t2 t3 : Z) :
  st !! "1" = Some t1 → st !! "2" = Some t2 → st !! "3" = Some t3 →
  starsEarned m st = computeStars m t1 t2 t3 ∧
  ∀ g, moves (currentGameState g) = m → stars (currentGameState g) = st →
       calls (handleLevelComplete g) =
         completeLevel (currentLevel g) m (computeStars m t1 t2 t3) :: calls g.
Proof.
  intros H1 H2 H3.
  assert (Hs : starsEarned m st = computeStars m t1 t2 t3).
  { unfold starsEarned, computeStars. by rewrite H1, H2, H3. }
  split; [done|]. intros g <- <-. simpl. by rewrite Hs.
Qed.

(** Scenario 5: thresholds 18, 13 and 9. *)
Lemma stars_of_the_scenario :
  starsEarned 7 thresholds = 3%nat ∧
  starsEarned 10 thresholds = 2%nat ∧
  starsEarned 20 thresholds = 0%nat.
Proof.
  split; [|split].
  - exact (proj1 (stars_most_generous_first 7 thresholds 18 13 9
             eq_refl eq_refl eq_refl)).
  - exact (proj1 (stars_most_generous_first 10 thresholds 18 13 9
             eq_refl eq_refl eq_refl)).
  - exact (proj1 (stars_most_generous_first 20 thresholds 18 13 9
             eq_refl eq_refl eq_refl)).
Defined.

(** ** The selection protocol and the solved state *)

Section Taps.
Variable attemptMove : Z → Z → Game → Game.

Lemma handleTubeClick_complete (tubeId : Z) (g : Game) :
  gameComplete g = true → handleTubeClick attemptMove tubeId g = g.
Proof. unfold handleTubeClick. by intros ->. Qed.

Lemma taps_complete (tubeIds : list Z) (g : Game) :
  gameComplete g = true → taps attemptMove tubeIds g = g.
Proof.
  intros Hc. unfold taps. induction tubeIds as [|t ts IH]; [done|].
  simpl. by rewrite handleTubeClick_complete.
Qed.

(** A second tap on the pending source clears the selection and goes no
    further. *)
Lemma handleTubeClick_same_tube (tubeId : Z) (g : Game) :
  gameComplete g = false → selectedTube g = Some tubeId →
  is_Some (findTube tubeId (tubes (currentGameState g))) →
  handleTubeClick attemptMove tubeId g = deselectTube g.
Proof.
  intros Hc Hsel [[k t] Hk]. unfold handleTubeClick.
  by rewrite Hc, Hk, Hsel, Z.eqb_refl.
Qed.
End Taps.

Lemma Bulk_attemptMove_complete (g : Game) (a b : Z) :
  accepted Bulk.isValidMove a b (currentGameState g) = true →
  Bulk.allTubesAtDesiredLevel
    (currentGameState (Bulk.attemptMove a b g)) = true →
  gameComplete (Bulk.attemptMove a b g) = true.
Proof.
  intros (i & j & f & t & Ha & Hb & Hv)%accepted_true.
  rewrite (Bulk_attemptMove_applied g a b i j f t) by done.
  unfold Bulk.attemptMove. rewrite Ha, Hb, Hv.
  unfold Bulk.checkWinCondition. simpl. by intros ->.
Qed.

(** C7.  When an applied move leaves every tube at the desired level, the
    game is marked complete; from then on every tap on a tube, and so
    every move request, leaves the game exactly as it is; a level that
    loads, by reset, selection or advance, installs a new board with the
    mark cleared. *)
Theorem solved_is_terminal (g : Game) (a b : Z) :
  let g' := Bulk.attemptMove a b g in
  accepted Bulk.isValidMove a b (currentGameState g) = true →
  Bulk.allTubesAtDesiredLevel (currentGameState g') = true →
  gameComplete g' = true ∧
  (∀ tubeId, Bulk.handleTubeClick tubeId g' = g') ∧
  (∀ tubeIds, Bulk.taps tubeIds g' = g') ∧
  (∀ files levelId gs,
     LevelManager.createGameLevel (LevelManager.loadLevel files levelId)
       = Some gs →
     loadLevel files levelId g' =
       {| currentGameState := gs; selectedTube := None;
          gameComplete := false; currentLevel := levelId;
          calls := calls g' |}).
Proof.
  intros g' Hacc Hwin.
  assert (Hc : gameComplete g' = true)
    by (by apply Bulk_attemptMove_complete).
  split; [done|]. split; [|split].
  - intros tubeId. by apply handleTubeClick_complete.
  - intros tubeIds. by apply taps_complete.
  - intros files levelId gs Hgs. unfold loadLevel.
    destruct (LevelManager.loadLevel files levelId) as [d|]; [|done].
    by rewrite Hgs.
Qed.

(** After the pour that solves the board, four more taps change nothing. *)
Lemma solved_then_taps_ignored :
  let g' := Bulk.attemptMove 0 1 (playing onePourFromSolved) in
  gameComplete g' = true ∧
  tubes (currentGameState g') = [tube 0 [red; red] 4; tube 1 [blue; blue] 2] ∧
  Bulk.taps [0; 1; 1; 0] g' = g'.
Proof.
  intros g'.
  destruct (solved_is_terminal (playing onePourFromSolved) 0 1)
    as (Hc & _ & Htaps & _); [reflexivity | reflexivity |].
  split; [exact Hc|]. split; [reflexivity|]. exact (Htaps [0; 1; 1; 0]).
Defined.

(** ** The same-tube check *)

(** C9, as stated, fails on the class with the bulk pour: its validation
    rejects a tube poured into itself although the source is not empty and
    the destination is not full. *)
Lemma same_tube_is_rejected_by_validation :
  ¬ (∀ f t, Bulk.isValidMove f t ≠ Valid →
            balls f = [] ∨ capacity t ≤ len (balls t)) ∧
  Bulk.isValidMove (tube 0 [red] 4) (tube 0 [red] 4) =
    Invalid "Cannot move to same tube".
Proof.
  split; [|reflexivity]. intros H.
  destruct (H (tube 0 [red] 4) (tube 0 [red] 4)) as [H'|H'];
    [discriminate | discriminate | vm_compute in H'; by apply H'].
Qed.

(** C9, amended.  The validation of the class with the single-ball move
    has no same-tube check: it rejects only an empty source, with "No balls
    to move", or else a full destination, with "Tube is full", whatever the
    ids.  The validation of the class with the bulk pour rejects, besides
    these, a source and a destination of one id, after the empty-source
    check and before the full-destination check: an empty source answers
    "No balls to move" also when the destination has the same id, a
    non-empty source of the same id answers "Cannot move to same tube" also
    when that tube is full, and only a non-empty source of another id can
    answer "Destination tube is full".  In both classes a second tap on the
    pending source only clears the selection, without a move attempt. *)
Theorem same_tube_check (f t : Tube) (g : Game) (tubeId : Z) :
  (Single.isValidMove f t = Valid ↔
     balls f ≠ [] ∧ len (balls t) < capacity t) ∧
  (Bulk.isValidMove f t = Valid ↔
     balls f ≠ [] ∧ id f ≠ id t ∧ len (balls t) < capacity t) ∧
  (balls f ≠ [] → id f = id t →
     Bulk.isValidMove f t = Invalid "Cannot move to same tube") ∧
  (gameComplete g = false → selectedTube g = Some tubeId →
   is_Some (findTube tubeId (tubes (currentGameState g))) →
     Bulk.handleTubeClick tubeId g = deselectTube g ∧
     Single.handleTubeClick tubeId g = deselectTube g) ∧
  (balls f = [] → Bulk.isValidMove f t = Invalid "No balls to move") ∧
  (balls f ≠ [] → id f ≠ id t → capacity t ≤ len (balls t) →
     Bulk.isValidMove f t = Invalid "Destination tube is full") ∧
  (balls f = [] → Single.isValidMove f t = Invalid "No balls to move") ∧
  (balls f ≠ [] → capacity t ≤ len (balls t) →
     Single.isValidMove f t = Invalid "Tube is full").
Proof.
  split; [apply Single_isValidMove_Valid|].
  split; [apply Bulk_isValidMove_Valid|]. split; [|split; [|repeat split]].
  - intros Hne Hid. unfold Bulk.isValidMove.
    rewrite <- len_nil_iff in Hne.
    destruct (Z.eqb_spec (len (balls f)) 0); [done|].
    by rewrite Hid, Z.eqb_refl.
  - intros Hc Hsel Hfound.
    split; by apply handleTubeClick_same_tube.
  - intros He. unfold Bulk.isValidMove. by rewrite He.
  - intros Hne Hid Hfull. unfold Bulk.isValidMove.
    rewrite <- len_nil_iff in Hne.
    destruct (Z.eqb_spec (len (balls f)) 0); [done|].
    destruct (Z.eqb_spec (id f) (id t)); [done|].
    by destruct (Z.leb_spec (capacity t) (len (balls t))); [|lia].
  - intros He. unfold Single.isValidMove. by rewrite He.
  - intros Hne Hfull. unfold Single.isValidMove.
    rewrite <- len_nil_iff in Hne.
    destruct (Z.eqb_spec (len (balls f)) 0); [done|].
    by destruct (Z.leb_spec (capacity t) (len (balls t))); [|lia].
Qed.

(** The order of the three checks of the class with the bulk pour, on one
    tube poured into itself: empty, it has no balls to move; holding a ball,
    full or not, it is the same tube. *)
Example same_tube_in_order :
  Bulk.isValidMove (tube 0 [] 4) (tube 0 [] 4) = Invalid "No balls to move" ∧
  Bulk.isValidMove (tube 0 [] 0) (tube 0 [] 0) = Invalid "No balls to move" ∧
  Bulk.isValidMove (tube 0 [red] 1) (tube 0 [red] 1) =
    Invalid "Cannot move to same tube" ∧
  Bulk.attemptMove 0 0 (playing emptySource) =
    call (showInvalidMove 0 "No balls to move") (playing emptySource).
Proof. repeat split; reflexivity. Qed.

(** In the class with the single-ball move a tube poured into itself is
    counted as a move that moves nothing. *)
Example single_same_tube_counts :
  Single.attemptMove 0 0 (playing twoReds) =
    with_state (with_moves 1 twoReds) (playing twoReds).
Proof. reflexivity. Qed.

Example bulk_same_tube_rejected :
  Bulk.attemptMove 0 0 (playing twoReds) =
    call (showInvalidMove 0 "Cannot move to same tube") (playing twoReds).
Proof. reflexivity. Qed.

(** ** A level without tubes *)

(** C10, as stated, fails: a level file whose [levelId] is 0 has its
    [levelId] and its [colors], and an empty [tubes] array, and is rejected,
    because [!levelData.levelId] holds of 0. *)
Lemma level_id_zero_is_rejected :
  ¬ (∀ d, is_Some (Json.levelId d) → is_Some (Json.colors d) →
          Json.tubes d = Some [] →
          LevelManager.validateLevel (Some d) = true) ∧
  LevelManager.validateLevel (Some (noTubes (Some 0))) = false.
Proof.
  split; [|reflexivity]. intros H.
  specialize (H (noTubes (Some 0))). simpl in H.
  assert (Hf : LevelManager.validateLevel (Some (noTubes (Some 0))) = false)
    by reflexivity.
  rewrite H in Hf; [discriminate | by eexists | by eexists | done].
Qed.

(** C10, amended.  A level file with an empty [tubes] array passes
    [validateLevel] when its [levelId] is there and not 0 and its [colors]
    is an array; the board made from it has no tube, the count check holds
    of it vacuously, and [checkWinCondition] marks the game complete the
    first time it runs on that board. *)
Theorem empty_level_is_solved (d : Json.LevelData) (l : Z)
    (cs : list string) (g : Game) :
  Json.tubes d = Some [] → Json.levelId d = Some l → l ≠ 0 →
  Json.colors d = Some cs →
  LevelManager.validateLevel (Some d) = true ∧
  ∃ gs, LevelManager.createGameLevel (Some d) = Some gs ∧
        tubes gs = [] ∧
        Bulk.allTubesAtDesiredLevel gs = true ∧
        gameComplete (Bulk.checkWinCondition (with_state gs g)) = true.
Proof.
  intros Ht Hl Hl0 Hc. split.
  - unfold LevelManager.validateLevel. rewrite Hl, Ht, Hc. simpl.
    by destruct (Z.eqb_spec l 0).
  - unfold LevelManager.createGameLevel. simpl. rewrite Ht. simpl.
    eexists. split; [done|]. by repeat split.
Qed.

Lemma level_without_tubes_is_solved :
  LevelManager.validateLevel (Some (noTubes (Some 1))) = true ∧
  ∃ gs, LevelManager.createGameLevel (Some (noTubes (Some 1))) = Some gs ∧
        tubes gs = [] ∧
        Bulk.allTubesAtDesiredLevel gs = true ∧
        gameComplete
          (Bulk.checkWinCondition (with_state gs (playing twoReds))) = true.
Proof.
  apply (empty_level_is_solved (noTubes (Some 1)) 1 ["red"]
           (playing twoReds)); [reflexivity | reflexivity | lia | reflexivity].
Defined.

(** * Further properties of the game classes *)

(** ** One tap, case by case *)

Section Clicks.
Variable attemptMove : Z → Z → Game → Game.

Lemma handleTubeClick_cases (tubeId : Z) (g : Game) :
  handleTubeClick attemptMove tubeId g = g ∨
  (selectedTube g = None ∧
   (∃ i t, findTube tubeId (tubes (currentGameState g)) = Some (i, t) ∧
           balls t ≠ []) ∧
   handleTubeClick attemptMove tubeId g = selectTube tubeId g) ∨
  (selectedTube g = None ∧
   handleTubeClick attemptMove tubeId g =
     call (showInvalidMove tubeId "Empty tube - nothing to move") g) ∨
  handleTubeClick attemptMove tubeId g = deselectTube g ∨
  (∃ s, gameComplete g = false ∧ selectedTube g = Some s ∧ s ≠ tubeId ∧
        handleTubeClick attemptMove tubeId g = attemptMove s tubeId g).
Proof.
  unfold handleTubeClick.
  destruct (gameComplete g) eqn:Hc; [by left|].
  destruct (findTube tubeId _) as [[i t]|] eqn:Hf; [|by left].
  destruct (selectedTube g) as [s|] eqn:Hs.
  - destruct (Z.eqb_spec s tubeId) as [->|Hne]; [by do 3 right; left|].
    do 4 right. by exists s.
  - destruct (Z.ltb_spec 0 (len (balls t))) as [Hpos|Hle].
    + right; left. split; [done|]. split; [|done]. exists i, t.
      split; [done|]. intros Hnil. rewrite Hnil in Hpos. by vm_compute in Hpos.
    + right; right; left. done.
Qed.

(** A property of the game kept by a move attempt and by the bookkeeping
    of the selection is kept by any run of taps. *)
Lemma taps_keep (P : Game → Prop) :
  (∀ g sel, P g → P (with_selected sel g)) →
  (∀ g c, P g → P (call c g)) →
  (∀ g a b, P g → P (attemptMove a b g)) →
  ∀ tubeIds g, P g → P (taps attemptMove tubeIds g).
Proof.
  intros Hsel Hcall Hatt tubeIds.
  induction tubeIds as [|t ts IH]; intros g Hg; [done|].
  simpl. apply IH.
  destruct (handleTubeClick_cases t g)
    as [->|[(_ & _ & ->)|[(_ & ->)|[->|(s & _ & _ & _ & ->)]]]];
    auto; by apply Hsel.
Qed.
End Clicks.

(** ** Identity of the tubes *)

(** The part of a tube that no move touches. *)
Lemma frame_insert (ts : list Tube) (i : nat) (t : Tube) (bs : list Ball) :
  ts !! i = Some t →
  (λ u, (id u, capacity u)) <$> <[i := with_balls bs t]> ts =
  (λ u, (id u, capacity u)) <$> ts.
Proof.
  intros Hi. rewrite list_fmap_insert. simpl.
  apply list_insert_id. by rewrite list_lookup_fmap, Hi.
Qed.

Lemma frame_transfer (ts : list Tube) (i j : nat) (f t : Tube)
    (bs bs' : list Ball) :
  i ≠ j → ts !! i = Some f → ts !! j = Some t →
  (λ u, (id u, capacity u)) <$>
    <[j := with_balls bs' t]> (<[i := with_balls bs f]> ts) =
  (λ u, (id u, capacity u)) <$> ts.
Proof.
  intros Hij Hi Hj. rewrite frame_insert; [by apply frame_insert|].
  by rewrite list_lookup_insert_ne.
Qed.

Lemma Bulk_attemptMove_frame (g : Game) (a b : Z) :
  (λ u, (id u, capacity u)) <$> tubes (currentGameState (Bulk.attemptMove a b g))
  = (λ u, (id u, capacity u)) <$> tubes (currentGameState g).
Proof.
  destruct (accepted Bulk.isValidMove a b (currentGameState g))
    eqn:Hacc; [|by rewrite Bulk_attemptMove_rejected].
  apply accepted_true in Hacc as (i & j & f & t & Ha & Hb & Hv).
  rewrite (Bulk_attemptMove_applied g a b i j f t) by done.
  destruct (findTube_Some _ _ _ _ Ha) as [Hi Hida].
  destruct (findTube_Some _ _ _ _ Hb) as [Hj Hidb].
  apply Bulk_isValidMove_Valid in Hv as (Hne & Hid & Hroom).
  assert (Hij : i ≠ j).
  { rewrite (findTube_alias _ _ _ _ _ _ _ Ha Hb). congruence. }
  rewrite (Bulk_performMove_tubes _ i j f t) by done.
  by apply frame_transfer.
Qed.

Lemma Single_attemptMove_frame (g : Game) (a b : Z) :
  (λ u, (id u, capacity u)) <$>
    tubes (currentGameState (Single.attemptMove a b g))
  = (λ u, (id u, capacity u)) <$> tubes (currentGameState g).
Proof.
  destruct (accepted Single.isValidMove a b (currentGameState g))
    eqn:Hacc; [|by rewrite Single_attemptMove_rejected].
  apply accepted_true in Hacc as (i & j & f & t & Ha & Hb & Hv).
  rewrite (Single_attemptMove_applied g a b i j f t) by done.
  destruct (findTube_Some _ _ _ _ Ha) as [Hi Hida].
  destruct (findTube_Some _ _ _ _ Hb) as [Hj Hidb].
  apply Single_isValidMove_Valid in Hv as (Hne & Hroom).
  destruct (decide (i = j)) as [->|Hij].
  - by rewrite (Single_performMove_same _ j f).
  - destruct (snoc_of_nonempty _ Hne) as (l & x & Hx).
    rewrite (Single_performMove_tubes _ i j f t l x) by done.
    by apply frame_transfer.
Qed.

(** The move counter after an attempt. *)
Lemma Bulk_attemptMove_moves (g : Game) (a b : Z) :
  moves (currentGameState (Bulk.attemptMove a b g)) =
    if accepted Bulk.isValidMove a b (currentGameState g)
    then moves (currentGameState g) + 1 else moves (currentGameState g).
Proof.
  destruct (accepted _ a b _) eqn:Hacc.
  - apply accepted_true in Hacc as (i & j & f & t & Ha & Hb & Hv).
    rewrite (Bulk_attemptMove_applied g a b i j f t) by done.
    destruct (findTube_Some _ _ _ _ Ha) as [Hi _].
    destruct (findTube_Some _ _ _ _ Hb) as [Hj _].
    unfold Bulk.performMove. by rewrite Hi, Hj.
  - by rewrite Bulk_attemptMove_rejected.
Qed.

Lemma Single_attemptMove_moves (g : Game) (a b : Z) :
  moves (currentGameState (Single.attemptMove a b g)) =
    if accepted Single.isValidMove a b (currentGameState g)
    then moves (currentGameState g) + 1 else moves (currentGameState g).
Proof.
  destruct (accepted _ a b _) eqn:Hacc.
  - apply accepted_true in Hacc as (i & j & f & t & Ha & Hb & Hv).
    by rewrite (Single_attemptMove_applied g a b i j f t).
  - by rewrite Single_attemptMove_rejected.
Qed.

(** ** Runs of taps *)

(** X1.  Whatever tubes are tapped, in either class, a board whose tubes
    all hold at most their capacity stays so, and its balls stay the same
    balls, only rearranged. *)
Theorem taps_keep_capacity_and_balls (tubeIds : list Z) (g : Game) :
  Forall fits (tubes (currentGameState g)) →
  Forall fits (tubes (currentGameState (Bulk.taps tubeIds g))) ∧
  Forall fits (tubes (currentGameState (Single.taps tubeIds g))) ∧
  allBalls (tubes (currentGameState (Bulk.taps tubeIds g))) ≡ₚ
    allBalls (tubes (currentGameState g)) ∧
  allBalls (tubes (currentGameState (Single.taps tubeIds g))) ≡ₚ
    allBalls (tubes (currentGameState g)).
Proof.
  intros Hfits. repeat split.
  - apply (taps_keep Bulk.attemptMove
             (λ g', Forall fits (tubes (currentGameState g')))); try done.
    intros. by apply Bulk_attemptMove_fits.
  - apply (taps_keep Single.attemptMove
             (λ g', Forall fits (tubes (currentGameState g')))); try done.
    intros. by apply Single_attemptMove_fits.
  - apply (taps_keep Bulk.attemptMove
             (λ g', allBalls (tubes (currentGameState g')) ≡ₚ
                    allBalls (tubes (currentGameState g)))); try done.
    intros g' a b Hg'. by rewrite Bulk_attemptMove_allBalls.
  - apply (taps_keep Single.attemptMove
             (λ g', allBalls (tubes (currentGameState g')) ≡ₚ
                    allBalls (tubes (currentGameState g)))); try done.
    intros g' a b Hg'. by rewrite Single_attemptMove_allBalls.
Qed.

Lemma taps_on_nearly_full :
  Forall fits (tubes (currentGameState
                 (Bulk.taps [0; 1; 1; 0; 0; 1] (playing nearlyFull)))) ∧
  allBalls (tubes (currentGameState
              (Bulk.taps [0; 1; 1; 0; 0; 1] (playing nearlyFull)))) ≡ₚ
    [red; blue; green; red; green].
Proof.
  destruct (taps_keep_capacity_and_balls [0; 1; 1; 0; 0; 1]
              (playing nearlyFull)) as (H1 & _ & H2 & _).
  - simpl. repeat (apply Forall_cons_2; [unfold fits, len; simpl; lia|]).
    apply Forall_nil_2.
  - split; [exact H1 | exact H2].
Defined.

(** X2.  In either class no run of taps changes the number of tubes, the
    id of a tube or the capacity of a tube, and none lowers the move
    counter or changes the level being played. *)
Theorem taps_keep_the_frame (tubeIds : list Z) (g : Game) :
  ((λ u, (id u, capacity u)) <$> tubes (currentGameState (Bulk.taps tubeIds g))
     = (λ u, (id u, capacity u)) <$> tubes (currentGameState g) ∧
   moves (currentGameState g) ≤ moves (currentGameState (Bulk.taps tubeIds g)) ∧
   currentLevel (Bulk.taps tubeIds g) = currentLevel g) ∧
  ((λ u, (id u, capacity u)) <$>
      tubes (currentGameState (Single.taps tubeIds g))
     = (λ u, (id u, capacity u)) <$> tubes (currentGameState g) ∧
   moves (currentGameState g) ≤
     moves (currentGameState (Single.taps tubeIds g)) ∧
   currentLevel (Single.taps tubeIds g) = currentLevel g).
Proof.
  split.
  - apply (taps_keep Bulk.attemptMove
      (λ g', (λ u, (id u, capacity u)) <$> tubes (currentGameState g')
               = (λ u, (id u, capacity u)) <$> tubes (currentGameState g) ∧
             moves (currentGameState g) ≤ moves (currentGameState g') ∧
             currentLevel g' = currentLevel g)); try done.
    intros g' a b (Hf & Hm & Hl). split; [|split].
    + by rewrite Bulk_attemptMove_frame.
    + rewrite Bulk_attemptMove_moves. case_match; lia.
    + rewrite <- Hl. unfold Bulk.attemptMove, Bulk.checkWinCondition.
      repeat case_match; done.
  - apply (taps_keep Single.attemptMove
      (λ g', (λ u, (id u, capacity u)) <$> tubes (currentGameState g')
               = (λ u, (id u, capacity u)) <$> tubes (currentGameState g) ∧
             moves (currentGameState g) ≤ moves (currentGameState g') ∧
             currentLevel g' = currentLevel g)); try done.
    intros g' a b (Hf & Hm & Hl). split; [|split].
    + by rewrite Single_attemptMove_frame.
    + rewrite Single_attemptMove_moves. case_match; lia.
    + rewrite <- Hl. unfold Single.attemptMove, Single.checkWinCondition.
      repeat case_match; done.
Qed.

(** ** Completion *)

Section Completion.
Variable attemptMove : Z → Z → Game → Game.
Variable win : GameState → bool.
Hypothesis attempt_counts : ∀ a b g,
  gameComplete g = false →
  completions (calls (attemptMove a b g)) =
    (completions (calls g) +
     if gameComplete (attemptMove a b g) then 1 else 0)%nat.
Hypothesis attempt_wins : ∀ a b g,
  gameComplete g = false → gameComplete (attemptMove a b g) = true →
  win (currentGameState (attemptMove a b g)) = true.

Lemma click_counts (t : Z) (g : Game) :
  gameComplete g = false →
  completions (calls (handleTubeClick attemptMove t g)) =
    (completions (calls g) +
     if gameComplete (handleTubeClick attemptMove t g) then 1 else 0)%nat ∧
  (gameComplete (handleTubeClick attemptMove t g) = true →
   win (currentGameState (handleTubeClick attemptMove t g)) = true).
Proof.
  intros Hc.
  destruct (handleTubeClick_cases attemptMove t g)
    as [->|[(_ & _ & ->)|[(_ & ->)|[->|(s & _ & _ & _ & ->)]]]];
    simpl; rewrite ?Hc; try (split; [lia | done]).
  split; [by apply attempt_counts | by apply attempt_wins].
Qed.

Lemma taps_count (tubeIds : list Z) (g : Game) :
  gameComplete g = false →
  completions (calls (taps attemptMove tubeIds g)) =
    (completions (calls g) +
     if gameComplete (taps attemptMove tubeIds g) then 1 else 0)%nat ∧
  (gameComplete (taps attemptMove tubeIds g) = true →
   win (currentGameState (taps attemptMove tubeIds g)) = true).
Proof.
  revert g. induction tubeIds as [|t ts IH]; intros g Hc.
  - simpl. rewrite Hc. split; [lia | done].
  - change (taps attemptMove (t :: ts) g)
      with (taps attemptMove ts (handleTubeClick attemptMove t g)).
    destruct (click_counts t g Hc) as [Hn Hw].
    destruct (gameComplete (handleTubeClick attemptMove t g)) eqn:Hc'.
    + rewrite (taps_complete attemptMove ts _ Hc'). rewrite Hc'. auto.
    + destruct (IH _ Hc') as [Hn' Hw']. split; [lia | done].
Qed.
End Completion.

Lemma Bulk_attempt_counts (a b : Z) (g : Game) :
  gameComplete g = false →
  completions (calls (Bulk.attemptMove a b g)) =
    (completions (calls g) +
     if gameComplete (Bulk.attemptMove a b g) then 1 else 0)%nat ∧
  (gameComplete (Bulk.attemptMove a b g) = true →
   Bulk.allTubesAtDesiredLevel
     (currentGameState (Bulk.attemptMove a b g)) = true).
Proof.
  intros Hc. unfold Bulk.attemptMove.
  destruct (findTube a _) as [[i f]|]; [|rewrite Hc; split; [lia|done]].
  destruct (findTube b _) as [[j t]|]; [|rewrite Hc; split; [lia|done]].
  destruct (Bulk.isValidMove f t);
    [|simpl; rewrite Hc; split; [lia|done]].
  unfold Bulk.checkWinCondition. simpl.
  destruct (Bulk.allTubesAtDesiredLevel _) eqn:Hw; simpl.
  - split; [lia | done].
  - rewrite Hc. split; [lia | done].
Qed.

Lemma Single_attempt_counts (a b : Z) (g : Game) :
  gameComplete g = false →
  completions (calls (Single.attemptMove a b g)) =
    (completions (calls g) +
     if gameComplete (Single.attemptMove a b g) then 1 else 0)%nat ∧
  (gameComplete (Single.attemptMove a b g) = true →
   Single.placeholderWin
     (currentGameState (Single.attemptMove a b g)) = true).
Proof.
  intros Hc. unfold Single.attemptMove.
  destruct (findTube a _) as [[i f]|]; [|rewrite Hc; split; [lia|done]].
  destruct (findTube b _) as [[j t]|]; [|rewrite Hc; split; [lia|done]].
  destruct (Single.isValidMove f t);
    [|simpl; rewrite Hc; split; [lia|done]].
  unfold Single.checkWinCondition.
  destruct (Single.placeholderWin _) eqn:Hw; simpl.
  - split; [lia | done].
  - rewrite Hc. split; [lia | done].
Qed.

(** X3.  In a run of taps on a game that is not complete, the level
    manager is told of a completion at most once, and exactly once when the
    run ends complete; a run that ends complete ends on a board that passes
    the win check of its class. *)
Theorem completion_is_reported_once (tubeIds : list Z) (g : Game) :
  gameComplete g = false →
  (completions (calls (Bulk.taps tubeIds g)) =
     (completions (calls g) +
      if gameComplete (Bulk.taps tubeIds g) then 1 else 0)%nat ∧
   (gameComplete (Bulk.taps tubeIds g) = true →
    Bulk.allTubesAtDesiredLevel
      (currentGameState (Bulk.taps tubeIds g)) = true)) ∧
  (completions (calls (Single.taps tubeIds g)) =
     (completions (calls g) +
      if gameComplete (Single.taps tubeIds g) then 1 else 0)%nat ∧
   (gameComplete (Single.taps tubeIds g) = true →
    Single.placeholderWin
      (currentGameState (Single.taps tubeIds g)) = true)).
Proof.
  intros Hc. split.
  - apply (taps_count Bulk.attemptMove Bulk.allTubesAtDesiredLevel);
      [intros; by apply Bulk_attempt_counts
      |intros; by apply Bulk_attempt_counts | done].
  - apply (taps_count Single.attemptMove Single.placeholderWin);
      [intros; by apply Single_attempt_counts
      |intros; by apply Single_attempt_counts | done].
Qed.

Lemma one_completion_for_seven_taps :
  calls (Bulk.taps [0; 1; 1; 0; 0; 1; 1] (playing onePourFromSolved)) =
    [completeLevel 1 1 3] ∧
  completions
    (calls (Bulk.taps [0; 1; 1; 0; 0; 1; 1] (playing onePourFromSolved)))
    = 1%nat.
Proof.
  split; [reflexivity|].
  exact (proj1 (proj1 (completion_is_reported_once [0; 1; 1; 0; 0; 1; 1]
                         (playing onePourFromSolved) eq_refl))).
Defined.

(** ** The pending source *)

Lemma Bulk_attemptMove_selected (g : Game) (a b : Z) :
  selectedTube (Bulk.attemptMove a b g) =
    if accepted Bulk.isValidMove a b (currentGameState g)
    then None else selectedTube g.
Proof.
  unfold accepted, Bulk.attemptMove, Bulk.checkWinCondition.
  destruct (findTube a _) as [[i f]|]; [|done].
  destruct (findTube b _) as [[j t]|]; [|done].
  destruct (Bulk.isValidMove f t); [|done]. by case_match.
Qed.

Lemma Single_attemptMove_selected (g : Game) (a b : Z) :
  selectedTube (Single.attemptMove a b g) =
    if accepted Single.isValidMove a b (currentGameState g)
    then None else selectedTube g.
Proof.
  unfold accepted, Single.attemptMove, Single.checkWinCondition.
  destruct (findTube a _) as [[i f]|]; [|done].
  destruct (findTube b _) as [[j t]|]; [|done].
  destruct (Single.isValidMove f t); [|done]. by case_match.
Qed.

(** X4.  In either class a move attempt that is applied clears the pending
    source, and one that is rejected, or names a tube that is not on the
    board, leaves the pending source selected. *)
Theorem selection_after_attempt (g : Game) (a b : Z) :
  selectedTube (Bulk.attemptMove a b g) =
    (if accepted Bulk.isValidMove a b (currentGameState g)
     then None else selectedTube g) ∧
  selectedTube (Single.attemptMove a b g) =
    (if accepted Single.isValidMove a b (currentGameState g)
     then None else selectedTube g).
Proof.
  split; [apply Bulk_attemptMove_selected | apply Single_attemptMove_selected].
Qed.

(** What a tap does to a game whose pending source holds balls, in the
    class with the bulk pour. *)
Lemma Bulk_click_reasons (t : Z) (g : Game) :
  selectionOk g →
  selectionOk (Bulk.handleTubeClick t g) ∧
  ∃ new, reasons (calls (Bulk.handleTubeClick t g)) = new ++ reasons (calls g) ∧
         Forall (λ r, r = "Destination tube is full" ∨
                      r = "Empty tube - nothing to move") new.
Proof.
  intros Hok. unfold Bulk.handleTubeClick.
  destruct (handleTubeClick_cases Bulk.attemptMove t g)
    as [->|[(_ & Hsel & ->)|[(Hn & ->)|[->|(s & _ & Hs & Hne & ->)]]]].
  - split; [done|]. by exists [].
  - split; [|by exists []]. intros s [= <-]. exact Hsel.
  - split; [by intros s; simpl; rewrite Hn|].
    exists ["Empty tube - nothing to move"]. split; [done|].
    apply Forall_cons_2; [by right | apply Forall_nil_2].
  - split; [by intros s|]. by exists [].
  - destruct (Hok s Hs) as (i & f & Hf & Hballs).
    unfold Bulk.attemptMove. rewrite Hf.
    destruct (findTube t _) as [[j u]|] eqn:Hu; [|split; [done|by exists []]].
    destruct (findTube_Some _ _ _ _ Hf) as [_ Hidf].
    destruct (findTube_Some _ _ _ _ Hu) as [_ Hidu].
    unfold Bulk.isValidMove. rewrite <- len_nil_iff in Hballs.
    destruct (Z.eqb_spec (len (balls f)) 0); [done|].
    destruct (Z.eqb_spec (id f) (id u)); [congruence|].
    destruct (Z.leb_spec (capacity u) (len (balls u))).
    + split; [exact Hok|]. exists ["Destination tube is full"].
      split; [done|]. apply Forall_cons_2; [by left | apply Forall_nil_2].
    + split.
      * intros s'. unfold Bulk.checkWinCondition. by case_match.
      * exists []. split; [|done].
        unfold Bulk.checkWinCondition. by case_match.
Qed.

(** X5.  In the class with the bulk pour, starting without a pending
    source, the only reasons for which taps ever report an invalid move are
    a full destination and the tap on an empty tube: the rejections for an
    empty source and for the same tube are never reached through taps. *)
Theorem reasons_reached_by_taps (tubeIds : list Z) (g : Game) :
  selectedTube g = None →
  ∃ new, reasons (calls (Bulk.taps tubeIds g)) = new ++ reasons (calls g) ∧
         Forall (λ r, r = "Destination tube is full" ∨
                      r = "Empty tube - nothing to move") new.
Proof.
  intros Hnone.
  assert (Hok : selectionOk g) by (by intros s; rewrite Hnone).
  clear Hnone. revert g Hok.
  induction tubeIds as [|t ts IH]; intros g Hok; [by exists []|].
  change (Bulk.taps (t :: ts) g) with (Bulk.taps ts (Bulk.handleTubeClick t g)).
  destruct (Bulk_click_reasons t g Hok) as (Hok' & new1 & Hr1 & Hall1).
  destruct (IH _ Hok') as (new2 & Hr2 & Hall2).
  exists (new2 ++ new1). split.
  - by rewrite Hr2, Hr1, app_assoc.
  - by apply Forall_app.
Qed.

Lemma reasons_on_full_destination :
  ∃ new,
    reasons (calls (Bulk.taps [0; 1; 0; 0; 1] (playing fullDestination))) =
      new ++ reasons (calls (playing fullDestination)) ∧
    Forall (λ r, r = "Destination tube is full" ∨
                 r = "Empty tube - nothing to move") new.
Proof.
  exact (reasons_reached_by_taps [0; 1; 0; 0; 1] (playing fullDestination)
           eq_refl).
Defined.

Example two_full_destinations :
  reasons (calls (Bulk.taps [0; 1; 0; 0; 1] (playing fullDestination))) =
    ["Destination tube is full"; "Destination tube is full"].
Proof. reflexivity. Qed.

(** ** More on the two pours *)

(** Lookup by id sees only the ids. *)
Lemma findTube_frame (a : Z) (ts ts' : list Tube) (i : nat) (f : Tube) :
  (λ u, (id u, capacity u)) <$> ts' = (λ u, (id u, capacity u)) <$> ts →
  findTube a ts = Some (i, f) →
  ∃ f', findTube a ts' = Some (i, f') ∧ ts' !! i = Some f' ∧
        capacity f' = capacity f.
Proof.
  intros Hfr Hf. unfold findTube in *.
  apply list_find_Some in Hf as (Hi & Hid & Hmin).
  assert (Hlk : ∀ k, (λ u, (id u, capacity u)) <$> ts' !! k =
                     (λ u, (id u, capacity u)) <$> ts !! k).
  { intros k. by rewrite <- !list_lookup_fmap, Hfr. }
  pose proof (Hlk i) as Hki. rewrite Hi in Hki.
  destruct (ts' !! i) as [f'|] eqn:Hi'; [|done]. simpl in Hki.
  injection Hki as Hid' Hcap'.
  exists f'. split; [|done].
  apply list_find_Some. split; [done|]. split; [congruence|].
  intros k y Hk Hlt Hy. pose proof (Hlk k) as Hkk. rewrite Hk in Hkk.
  destruct (ts !! k) as [y'|] eqn:Hk'; [|done]. simpl in Hkk.
  injection Hkk as Hidy _. apply (Hmin k y' Hk' Hlt). congruence.
Qed.

(** The two tubes of a bulk pour that is applied. *)
Lemma Bulk_applied_lookups (g : Game) (a b : Z) (i j : nat) (f t : Tube) :
  findTube a (tubes (currentGameState g)) = Some (i, f) →
  findTube b (tubes (currentGameState g)) = Some (j, t) →
  Bulk.isValidMove f t = Valid →
  let n := poured f t in
  tubes (currentGameState (Bulk.attemptMove a b g)) !! i =
    Some (with_balls (take (length (balls f) - n) (balls f)) f) ∧
  tubes (currentGameState (Bulk.attemptMove a b g)) !! j =
    Some (with_balls
            (balls t ++ rev (drop (length (balls f) - n) (balls f))) t).
Proof.
  intros Ha Hb Hv n.
  rewrite (Bulk_attemptMove_applied g a b i j f t) by done.
  destruct (findTube_Some _ _ _ _ Ha) as [Hi Hida].
  destruct (findTube_Some _ _ _ _ Hb) as [Hj Hidb].
  apply Bulk_isValidMove_Valid in Hv as (Hne & Hid & Hroom).
  assert (Hij : i ≠ j).
  { rewrite (findTube_alias _ _ _ _ _ _ _ Ha Hb). congruence. }
  rewrite (Bulk_performMove_tubes _ i j f t) by done.
  assert (Hli : (i < length (tubes (currentGameState g)))%nat)
    by (by eapply lookup_lt_Some).
  assert (Hlj : (j < length (tubes (currentGameState g)))%nat)
    by (by eapply lookup_lt_Some).
  split.
  - rewrite list_lookup_insert_ne by done. by rewrite list_lookup_insert_eq.
  - rewrite list_lookup_insert_eq; [done|]. by rewrite length_insert.
Qed.

(** X6.  A bulk pour that is applied ends with the source empty or the
    destination exactly full, and the two tubes together hold as many balls
    as before. *)
Theorem bulk_pour_empties_or_fills (g : Game) (a b : Z) (i j : nat)
    (f t : Tube) :
  findTube a (tubes (currentGameState g)) = Some (i, f) →
  findTube b (tubes (currentGameState g)) = Some (j, t) →
  Bulk.isValidMove f t = Valid →
  ∃ f' t',
    tubes (currentGameState (Bulk.attemptMove a b g)) !! i = Some f' ∧
    tubes (currentGameState (Bulk.attemptMove a b g)) !! j = Some t' ∧
    (balls f' = [] ∨ len (balls t') = capacity t') ∧
    len (balls f') + len (balls t') = len (balls f) + len (balls t) ∧
    capacity t' = capacity t.
Proof.
  intros Ha Hb Hv.
  destruct (Bulk_applied_lookups g a b i j f t Ha Hb Hv) as [Hi' Hj'].
  apply Bulk_isValidMove_Valid in Hv as (Hne & Hid & Hroom).
  eexists _, _. split; [exact Hi'|]. split; [exact Hj'|].
  pose proof (poured_le f t) as Hle. simpl. unfold len.
  rewrite length_app, length_rev, length_drop, length_take.
  split; [|split; [unfold poured, len in *; lia | done]].
  destruct (decide (poured f t = length (balls f))) as [He|Hn].
  - left. rewrite He, Nat.sub_diag. by rewrite take_0.
  - right. unfold poured, len in *. lia.
Qed.

Lemma pour_fills_the_destination :
  ∃ f' t',
    tubes (currentGameState (Bulk.attemptMove 0 1 (playing nearlyFull)))
      !! 0%nat = Some f' ∧
    tubes (currentGameState (Bulk.attemptMove 0 1 (playing nearlyFull)))
      !! 1%nat = Some t' ∧
    (balls f' = [] ∨ len (balls t') = capacity t') ∧
    len (balls f') + len (balls t') =
      len [red; blue; green; red] + len [green] ∧
    capacity t' = 4.
Proof.
  exact (bulk_pour_empties_or_fills (playing nearlyFull) 0 1 0%nat 1%nat
           (tube 0 [red; blue; green; red] 4) (tube 1 [green] 4)
           eq_refl eq_refl eq_refl).
Defined.

(** X7.  A bulk pour that was applied cannot be applied again at once: the
    same request on the board it left is rejected. *)
Theorem bulk_pour_not_repeatable (g : Game) (a b : Z) :
  accepted Bulk.isValidMove a b (currentGameState g) = true →
  accepted Bulk.isValidMove a b
    (currentGameState (Bulk.attemptMove a b g)) = false.
Proof.
  intros Hacc.
  apply accepted_true in Hacc as (i & j & f & t & Ha & Hb & Hv).
  destruct (Bulk_applied_lookups g a b i j f t Ha Hb Hv) as [Hi' Hj'].
  pose proof (Bulk_attemptMove_frame g a b) as Hfr.
  destruct (findTube_frame a _ _ i f Hfr Ha) as (f2 & Ha' & Hi2 & _).
  destruct (findTube_frame b _ _ j t Hfr Hb) as (t2 & Hb' & Hj2 & _).
  rewrite Hi' in Hi2. rewrite Hj' in Hj2.
  injection Hi2 as <-. injection Hj2 as <-.
  apply Bulk_isValidMove_Valid in Hv as (Hne & Hid & Hroom).
  unfold accepted. rewrite Ha', Hb'.
  destruct (Bulk.isValidMove (with_balls _ f) (with_balls _ t)) eqn:Hv';
    [|done].
  apply Bulk_isValidMove_Valid in Hv' as (Hne' & _ & Hroom').
  pose proof (poured_le f t) as Hle. simpl in *.
  rewrite <- len_nil_iff in Hne'. unfold len in *.
  rewrite length_take in Hne'.
  rewrite length_app, length_rev, length_drop in Hroom'.
  unfold poured, len in *. lia.
Qed.

Lemma two_reds_cannot_be_poured_twice :
  accepted Bulk.isValidMove 0 1
    (currentGameState (Bulk.attemptMove 0 1 (playing twoReds))) = false.
Proof. exact (bulk_pour_not_repeatable (playing twoReds) 0 1 eq_refl). Defined.

(** X8.  In the class with the single-ball move, a move applied between
    two different tubes takes exactly the top ball of the source and puts
    it on top of the destination; every other ball and every other tube is
    as before. *)
Theorem single_move_carries_the_top_ball (g : Game) (a b : Z) (i j : nat)
    (f t : Tube) (l : list Ball) (x : Ball) :
  findTube a (tubes (currentGameState g)) = Some (i, f) →
  findTube b (tubes (currentGameState g)) = Some (j, t) →
  a ≠ b → balls f = l ++ [x] → len (balls t) < capacity t →
  tubes (currentGameState (Single.attemptMove a b g)) =
    <[j := with_balls (balls t ++ [x]) t]>
      (<[i := with_balls l f]> (tubes (currentGameState g))).
Proof.
  intros Ha Hb Hab Hx Hroom.
  destruct (findTube_Some _ _ _ _ Ha) as [Hi Hida].
  destruct (findTube_Some _ _ _ _ Hb) as [Hj Hidb].
  assert (Hij : i ≠ j) by (by rewrite (findTube_alias _ _ _ _ _ _ _ Ha Hb)).
  assert (Hv : Single.isValidMove f t = Valid).
  { apply Single_isValidMove_Valid. split; [|done].
    rewrite Hx. by destruct l. }
  rewrite (Single_attemptMove_applied g a b i j f t) by done.
  by apply Single_performMove_tubes.
Qed.

Lemma single_move_on_two_reds :
  tubes (currentGameState (Single.attemptMove 0 1 (playing twoReds))) =
    [tube 0 [red] 4; tube 1 [red] 4].
Proof.
  exact (single_move_carries_the_top_ball (playing twoReds) 0 1 0%nat 1%nat
           (tube 0 [red; red] 4) (tube 1 [] 4) [red] red
           eq_refl eq_refl ltac:(lia) eq_refl eq_refl).
Defined.

(** X9.  The class with the single-ball move has no same-tube check: a
    move attempt from a tube into itself, when the tube holds a ball and
    has room, is applied, counts as a move, clears the selection, and
    leaves every tube as it was.  The class with the bulk pour rejects the
    same attempt and counts nothing. *)
Theorem same_tube_attempt (g : Game) (a : Z) (i : nat) (f : Tube) :
  findTube a (tubes (currentGameState g)) = Some (i, f) →
  balls f ≠ [] → len (balls f) < capacity f →
  (tubes (currentGameState (Single.attemptMove a a g)) =
     tubes (currentGameState g) ∧
   moves (currentGameState (Single.attemptMove a a g)) =
     moves (currentGameState g) + 1 ∧
   selectedTube (Single.attemptMove a a g) = None) ∧
  Bulk.attemptMove a a g =
    call (showInvalidMove a "Cannot move to same tube") g.
Proof.
  intros Ha Hne Hroom.
  destruct (findTube_Some _ _ _ _ Ha) as [Hi Hida].
  assert (Hv : Single.isValidMove f f = Valid)
    by (by apply Single_isValidMove_Valid).
  assert (Hacc : accepted Single.isValidMove a a (currentGameState g) = true).
  { unfold accepted. by rewrite Ha, Hv. }
  split; [split; [|split]|].
  - rewrite (Single_attemptMove_applied g a a i i f f) by done.
    by apply (Single_performMove_same _ i f).
  - by rewrite Single_attemptMove_moves, Hacc.
  - by rewrite Single_attemptMove_selected, Hacc.
  - unfold Bulk.attemptMove. rewrite Ha. unfold Bulk.isValidMove.
    rewrite <- len_nil_iff in Hne.
    destruct (Z.eqb_spec (len (balls f)) 0); [done|].
    by rewrite Z.eqb_refl.
Qed.

Lemma same_tube_on_two_reds :
  (tubes (currentGameState (Single.attemptMove 0 0 (playing twoReds))) =
     tubes twoReds ∧
   moves (currentGameState (Single.attemptMove 0 0 (playing twoReds))) = 1 ∧
   selectedTube (Single.attemptMove 0 0 (playing twoReds)) = None) ∧
  Bulk.attemptMove 0 0 (playing twoReds) =
    call (showInvalidMove 0 "Cannot move to same tube") (playing twoReds).
Proof.
  refine (same_tube_attempt (playing twoReds) 0 0%nat (tube 0 [red; red] 4)
            eq_refl _ eq_refl). discriminate.
Defined.

(** X10.  A tube id that no tube of the board has is ignored everywhere:
    as source or as destination of a move attempt and as a tap, in either
    class, it leaves the game as it was, with no feedback. *)
Theorem unknown_tube_is_ignored (g : Game) (a b : Z) :
  Forall (λ t, id t ≠ a) (tubes (currentGameState g)) →
  Bulk.attemptMove a b g = g ∧ Bulk.attemptMove b a g = g ∧
  Single.attemptMove a b g = g ∧ Single.attemptMove b a g = g ∧
  Bulk.handleTubeClick a g = g ∧ Single.handleTubeClick a g = g.
Proof.
  intros Hall.
  assert (Hn : findTube a (tubes (currentGameState g)) = None)
    by (by apply list_find_None).
  unfold Bulk.attemptMove, Single.attemptMove, Bulk.handleTubeClick,
    Single.handleTubeClick, handleTubeClick.
  rewrite Hn. repeat split; repeat case_match; done.
Qed.

Lemma tube_seven_is_ignored :
  Bulk.attemptMove 7 1 (playing twoReds) = playing twoReds ∧
  Bulk.attemptMove 1 7 (playing twoReds) = playing twoReds ∧
  Single.attemptMove 7 1 (playing twoReds) = playing twoReds ∧
  Single.attemptMove 1 7 (playing twoReds) = playing twoReds ∧
  Bulk.handleTubeClick 7 (playing twoReds) = playing twoReds ∧
  Single.handleTubeClick 7 (playing twoReds) = playing twoReds.
Proof.
  apply (unknown_tube_is_ignored (playing twoReds) 7 1). simpl.
  repeat (apply Forall_cons_2; [simpl; lia|]). apply Forall_nil_2.
Defined.

(** ** Stars and hints *)

(** X11.  Whatever the thresholds of a level are, also when some are
    missing or out of order, a completion in fewer moves never earns fewer
    stars. *)
Theorem fewer_moves_never_fewer_stars (st : gmap string Z) (m m' : Z) :
  m ≤ m' → (starsEarned m' st ≤ starsEarned m st)%nat.
Proof.
  intros Hm. unfold starsEarned, le_number.
  destruct (st !! "3") as [t3|], (st !! "2") as [t2|], (st !! "1") as [t1|];
    repeat match goal with
           | |- context [?x <=? ?y] => destruct (Z.leb_spec x y)
           end; lia.
Qed.

Lemma seven_moves_beat_ten :
  (starsEarned 10 thresholds ≤ starsEarned 7 thresholds)%nat.
Proof. apply fewer_moves_never_fewer_stars. lia. Defined.

(** X12.  When the three thresholds are present and ordered, rank 3 the
    lowest, the number of stars that [updateStars] lights during play is
    the number of stars that a completion at the same move count earns. *)
Theorem lit_stars_are_the_stars_earned (g : Game) (t1 t2 t3 : Z) :
  stars (currentGameState g) !! "1" = Some t1 →
  stars (currentGameState g) !! "2" = Some t2 →
  stars (currentGameState g) !! "3" = Some t3 →
  t3 ≤ t2 → t2 ≤ t1 →
  lit (updateStars g) =
    starsEarned (moves (currentGameState g)) (stars (currentGameState g)).
Proof.
  intros H1 H2 H3 H32 H21. unfold updateStars, starsEarned, lit. simpl.
  rewrite H1, H2, H3. simpl.
  destruct (Z.leb_spec (moves (currentGameState g)) t3),
           (Z.leb_spec (moves (currentGameState g)) t2),
           (Z.leb_spec (moves (currentGameState g)) t1);
    try lia; reflexivity.
Qed.

Lemma lit_stars_on_two_reds :
  lit (updateStars (playing twoReds)) = 3%nat.
Proof.
  exact (lit_stars_are_the_stars_earned (playing twoReds) 18 13 9
           eq_refl eq_refl eq_refl ltac:(lia) ltac:(lia)).
Defined.

Lemma showHint_hintAt (g : Game) (steps : list (Z * Z)) :
  solutionSteps (currentGameState g) = Some steps →
  0 ≤ moves (currentGameState g) →
  showHint g = hintAt steps (Z.to_nat (moves (currentGameState g))).
Proof.
  intros Hs Hm. unfold showHint, hintAt. rewrite Hs.
  destruct (Z.ltb_spec (moves (currentGameState g)) (Z.of_nat (length steps))).
  - destruct (Z.ltb_spec (moves (currentGameState g)) 0); [lia|].
    destruct (steps !! _) as [[x y]|] eqn:Hl; [done|].
    apply lookup_ge_None in Hl. lia.
  - rewrite (proj2 (lookup_ge_None steps _)); [done | lia].
Qed.

Lemma Bulk_attemptMove_steps (g : Game) (a b : Z) :
  solutionSteps (currentGameState (Bulk.attemptMove a b g)) =
    solutionSteps (currentGameState g).
Proof.
  destruct (accepted Bulk.isValidMove a b (currentGameState g))
    eqn:Hacc; [|by rewrite Bulk_attemptMove_rejected].
  apply accepted_true in Hacc as (i & j & f & t & Ha & Hb & Hv).
  rewrite (Bulk_attemptMove_applied g a b i j f t) by done.
  unfold Bulk.performMove. by repeat case_match.
Qed.

Lemma Single_attemptMove_steps (g : Game) (a b : Z) :
  solutionSteps (currentGameState (Single.attemptMove a b g)) =
    solutionSteps (currentGameState g).
Proof.
  destruct (accepted Single.isValidMove a b (currentGameState g))
    eqn:Hacc; [|by rewrite Single_attemptMove_rejected].
  apply accepted_true in Hacc as (i & j & f & t & Ha & Hb & Hv).
  by rewrite (Single_attemptMove_applied g a b i j f t).
Qed.

(** X13.  The hint follows the move counter and nothing else: on a level
    with solution steps, after a move attempt the hint is the step one
    further when the attempt was applied, whether or not it was the move
    hinted at, and the same step when it was rejected; past the last step
    there are no more hints. *)
Theorem hint_follows_the_move_counter (g : Game) (a b : Z)
    (steps : list (Z * Z)) :
  solutionSteps (currentGameState g) = Some steps →
  0 ≤ moves (currentGameState g) →
  let k := Z.to_nat (moves (currentGameState g)) in
  showHint g = hintAt steps k ∧
  showHint (Bulk.attemptMove a b g) =
    hintAt steps
      (if accepted Bulk.isValidMove a b (currentGameState g)
       then S k else k) ∧
  showHint (Single.attemptMove a b g) =
    hintAt steps
      (if accepted Single.isValidMove a b (currentGameState g)
       then S k else k).
Proof.
  intros Hs Hm k. split; [by apply showHint_hintAt|]. split.
  - rewrite (showHint_hintAt _ steps);
      [|by rewrite Bulk_attemptMove_steps
       |rewrite Bulk_attemptMove_moves; case_match; lia].
    rewrite Bulk_attemptMove_moves. f_equal. unfold k. case_match; lia.
  - rewrite (showHint_hintAt _ steps);
      [|by rewrite Single_attemptMove_steps
       |rewrite Single_attemptMove_moves; case_match; lia].
    rewrite Single_attemptMove_moves. f_equal. unfold k. case_match; lia.
Qed.

(** Scenario 6, and a move that is not the one hinted at. *)
Lemma hints_of_two_steps :
  showHint (playing twoSteps) = HintMove 0 1 ∧
  showHint (Bulk.attemptMove 0 2 (playing twoSteps)) = HintMove 1 2 ∧
  showHint (Bulk.attemptMove 2 1 (Bulk.attemptMove 0 2 (playing twoSteps)))
    = NoMoreHints.
Proof.
  split; [|split].
  - exact (proj1 (hint_follows_the_move_counter (playing twoSteps) 0 2
                    [(0, 1); (1, 2)] eq_refl ltac:(simpl; lia))).
  - exact (proj1 (proj2 (hint_follows_the_move_counter (playing twoSteps) 0 2
                    [(0, 1); (1, 2)] eq_refl ltac:(simpl; lia)))).
  - exact (proj1 (proj2 (hint_follows_the_move_counter
                    (Bulk.attemptMove 0 2 (playing twoSteps)) 2 1
                    [(0, 1); (1, 2)] eq_refl ltac:(simpl; lia)))).
Defined.

(** ** Levels, validated and loaded *)

Lemma validTube_copy (cs : list string) (t : Json.TubeData) :
  LevelManager.validTube cs t = true →
  ∃ u, LevelManager.copyTube t = Some u ∧ tubeData u = t ∧
       1 ≤ capacity u ∧
       Forall (λ b, ∃ c, b = Color c ∧ c ∈ cs) (balls u).
Proof.
  unfold LevelManager.validTube, LevelManager.copyTube.
  destruct t as [[i|] [bs|] [c|]]; simpl; try done.
  intros [Hc Hb]%andb_true_iff.
  eexists. split; [done|]. split; [done|]. simpl.
  split; [by apply Z.leb_le|].
  induction bs as [|x bs IH]; [apply Forall_nil_2|].
  simpl in Hb. apply andb_true_iff in Hb as [Hx Hb].
  apply Forall_cons_2; [|by apply IH].
  destruct x as [c'|]; [|done]. exists c'. split; [done|].
  simpl in Hx. by apply bool_decide_eq_true in Hx.
Qed.

Lemma validTubes_copy (cs : list string) (ts : list Json.TubeData) :
  forallb (LevelManager.validTube cs) ts = true →
  ∃ us, mapM LevelManager.copyTube ts = Some us ∧ tubeData <$> us = ts ∧
        Forall (λ u, 1 ≤ capacity u ∧
                     Forall (λ b, ∃ c, b = Color c ∧ c ∈ cs) (balls u)) us.
Proof.
  induction ts as [|t ts IH]; simpl.
  - intros _. exists []. split; [done|]. split; [done | apply Forall_nil_2].
  - intros [Ht Hts]%andb_true_iff.
    destruct (validTube_copy cs t Ht) as (u & Hu & Hd & Hc & Hb).
    destruct (IH Hts) as (us & Hus & Hds & Hall).
    exists (u :: us). rewrite Hu. simpl. rewrite Hus. simpl.
    split; [done|]. split; [rewrite Hd; f_equal; exact Hds|].
    by apply Forall_cons_2.
Qed.

Lemma validated_board (d : Json.LevelData) :
  LevelManager.validateLevel (Some d) = true →
  ∃ gs, LevelManager.createGameLevel (Some d) = Some gs ∧
        Json.tubes d = Some (tubeData <$> tubes gs).
Proof.
  unfold LevelManager.validateLevel, LevelManager.createGameLevel. simpl.
  destruct (Json.levelId d) as [l|]; [|done].
  destruct (Json.tubes d) as [ts|]; [|done].
  destruct (Json.colors d) as [cs|]; [|done].
  intros [_ Hts]%andb_true_iff.
  destruct (validTubes_copy cs ts Hts) as (us & Hus & Hds & _).
  simpl. rewrite Hus. simpl. eexists. split; [done|]. simpl. by rewrite Hds.
Qed.

(** X14.  A level file that passes [validateLevel] always gives a board:
    [createGameLevel] succeeds on it, the board starts at 0 moves, its
    tubes are the tubes of the file in the same order, every capacity is at
    least 1 and every ball is of a colour that the file declares. *)
Theorem validated_level_gives_a_board (d : Json.LevelData) :
  LevelManager.validateLevel (Some d) = true →
  ∃ gs cs,
    LevelManager.createGameLevel (Some d) = Some gs ∧
    Json.colors d = Some cs ∧
    Json.tubes d = Some (tubeData <$> tubes gs) ∧
    moves gs = 0 ∧ desiredLevel gs = Json.desiredLevel d ∧
    stars gs = Json.stars d ∧
    Forall (λ u, 1 ≤ capacity u ∧
                 Forall (λ b, ∃ c, b = Color c ∧ c ∈ cs) (balls u))
      (tubes gs).
Proof.
  unfold LevelManager.validateLevel, LevelManager.createGameLevel. simpl.
  destruct (Json.levelId d) as [l|]; [|done].
  destruct (Json.tubes d) as [ts|]; [|done].
  destruct (Json.colors d) as [cs|]; [|done].
  intros [_ Hts]%andb_true_iff.
  destruct (validTubes_copy cs ts Hts) as (us & Hus & Hds & Hall).
  simpl. rewrite Hus. simpl. eexists _, cs.
  repeat split; simpl; try done. by rewrite Hds.
Qed.

Lemma two_tubes_give_a_board :
  ∃ gs cs,
    LevelManager.createGameLevel (Some twoTubes) = Some gs ∧
    Json.colors twoTubes = Some cs ∧
    Json.tubes twoTubes = Some (tubeData <$> tubes gs) ∧
    moves gs = 0 ∧ desiredLevel gs = Json.desiredLevel twoTubes ∧
    stars gs = Json.stars twoTubes ∧
    Forall (λ u, 1 ≤ capacity u ∧
                 Forall (λ b, ∃ c, b = Color c ∧ c ∈ cs) (balls u))
      (tubes gs).
Proof. exact (validated_level_gives_a_board twoTubes eq_refl). Defined.

Lemma includes_replicate (cs : list string) (c : string) (n : nat) :
  c ∈ cs →
  forallb (LevelManager.includes cs) (replicate n (Color c)) = true.
Proof.
  intros Hc. induction n as [|n IH]; [done|]. simpl.
  rewrite IH, andb_true_r. by apply bool_decide_eq_true.
Qed.

(** X15.  [validateLevel] never compares the number of balls of a tube
    with its capacity: putting any number of further balls of a declared
    colour on every tube of a valid level file leaves it valid, and the
    board made from it carries at least that many balls in every tube. *)
Theorem validation_ignores_the_fill (d : Json.LevelData) (cs : list string)
    (n : nat) (c : string) :
  LevelManager.validateLevel (Some d) = true →
  Json.colors d = Some cs → c ∈ cs →
  LevelManager.validateLevel (Some (addBalls n c d)) = true ∧
  ∃ gs, LevelManager.createGameLevel (Some (addBalls n c d)) = Some gs ∧
        Forall (λ u, Z.of_nat n ≤ len (balls u)) (tubes gs).
Proof.
  intros Hv Hcs Hc.
  assert (Hv' : LevelManager.validateLevel (Some (addBalls n c d)) = true).
  { revert Hv. unfold LevelManager.validateLevel. simpl. rewrite Hcs.
    destruct (Json.levelId d) as [l|]; [|done].
    destruct (Json.tubes d) as [ts|]; [|done]. simpl.
    intros [Hl Hts]%andb_true_iff. apply andb_true_iff. split; [done|].
    clear Hl. induction ts as [|t ts IH]; [done|]. simpl in *.
    apply andb_true_iff in Hts as [Ht Hts].
    apply andb_true_iff. split; [|by apply IH].
    revert Ht. unfold LevelManager.validTube. simpl.
    destruct (Json.id t), (Json.balls t) as [bs|], (Json.capacity t);
      simpl; try done.
    intros [H1 Hb]%andb_true_iff. apply andb_true_iff. split; [done|].
    by rewrite forallb_app, Hb, includes_replicate. }
  split; [done|].
  destruct (validated_board (addBalls n c d) Hv')
    as (gs & Hgs & Hts).
  exists gs. split; [done|].
  simpl in Hts. destruct (Json.tubes d) as [ts|]; [|done]. simpl in Hts.
  injection Hts as Hts.
  apply Forall_forall. intros u Hu.
  assert (Hin : tubeData u ∈ tubeData <$> tubes gs)
    by (by apply list_elem_of_fmap_2).
  rewrite <- Hts in Hin. apply list_elem_of_fmap in Hin as (t & Ht & _).
  destruct t as [ti [tb|] tc]; simpl in Ht; [|done].
  injection Ht as _ Hb _. rewrite Hb. unfold len.
  rewrite length_app, length_replicate. lia.
Qed.

(** Three more reds on tubes of capacity 2 still pass. *)
Lemma overfull_level_is_valid :
  LevelManager.validateLevel (Some (addBalls 3 "red" twoTubes)) = true ∧
  ∃ gs, LevelManager.createGameLevel (Some (addBalls 3 "red" twoTubes))
          = Some gs ∧
        Forall (λ u, Z.of_nat 3 ≤ len (balls u)) (tubes gs).
Proof.
  apply (validation_ignores_the_fill twoTubes ["red"; "blue"] 3 "red");
    [reflexivity | reflexivity | apply list_elem_of_here].
Defined.

Lemma loadLevel_valid (files : Z → option Json.LevelData) (levelId : Z)
    (d : Json.LevelData) (gs : GameState) (g : Game) :
  files levelId = Some d → LevelManager.validateLevel (Some d) = true →
  LevelManager.createGameLevel (Some d) = Some gs →
  loadLevel files levelId g =
    {| currentGameState := gs; selectedTube := None; gameComplete := false;
       currentLevel := levelId; calls := calls g |}.
Proof.
  intros Hf Hv Hgs. unfold loadLevel, LevelManager.loadLevel.
  rewrite Hf. unfold mbind, option_bind. by rewrite Hv, Hgs.
Qed.

Lemma loadLevel_refused (files : Z → option Json.LevelData) (levelId : Z)
    (g : Game) :
  (∀ d, files levelId = Some d →
        LevelManager.validateLevel (Some d) = false) →
  loadLevel files levelId g = g.
Proof.
  intros Hf. unfold loadLevel, LevelManager.loadLevel.
  destruct (files levelId) as [d|]; [|done].
  unfold mbind, option_bind. by rewrite (Hf d).
Qed.

(** X16.  [loadLevel] of the game is all or nothing: for a level that is
    listed and passes [validateLevel] it installs the board of that level
    at 0 moves, with no pending source and not complete; for a level that
    is not listed or fails validation it leaves the game exactly as it
    was, board, selection and completion included. *)
Theorem load_level_is_all_or_nothing (files : Z → option Json.LevelData)
    (levelId : Z) (g : Game) :
  match files levelId with
  | Some d =>
      if LevelManager.validateLevel (Some d)
      then ∃ gs, LevelManager.createGameLevel (Some d) = Some gs ∧
                 moves gs = 0 ∧
                 Json.tubes d = Some (tubeData <$> tubes gs) ∧
                 loadLevel files levelId g =
                   {| currentGameState := gs; selectedTube := None;
                      gameComplete := false; currentLevel := levelId;
                      calls := calls g |}
      else loadLevel files levelId g = g
  | None => loadLevel files levelId g = g
  end.
Proof.
  destruct (files levelId) as [d|] eqn:Hf;
    [|by apply loadLevel_refused; intros d; rewrite Hf].
  destruct (LevelManager.validateLevel (Some d)) eqn:Hv;
    [|apply loadLevel_refused; intros d'; rewrite Hf; by intros [= <-]].
  destruct (validated_board d Hv) as (gs & Hgs & Hts).
  exists gs. split; [done|]. split; [|split; [done|]].
  - revert Hgs. unfold LevelManager.createGameLevel, mbind, option_bind.
    destruct (Json.tubes d); [|done].
    destruct (mapM _ _); [|done]. by intros [= <-].
  - by apply (loadLevel_valid files levelId d).
Qed.

Lemma Bulk_taps_level (tubeIds : list Z) (g : Game) :
  currentLevel (Bulk.taps tubeIds g) = currentLevel g.
Proof.
  apply (taps_keep Bulk.attemptMove (λ g', currentLevel g' = currentLevel g));
    try done.
  intros g' a b <-. unfold Bulk.attemptMove, Bulk.checkWinCondition.
  by repeat case_match.
Qed.

Lemma Single_taps_level (tubeIds : list Z) (g : Game) :
  currentLevel (Single.taps tubeIds g) = currentLevel g.
Proof.
  apply (taps_keep Single.attemptMove (λ g', currentLevel g' = currentLevel g));
    try done.
  intros g' a b <-. unfold Single.attemptMove, Single.checkWinCondition.
  by repeat case_match.
Qed.

(** X17.  Reset undoes play: after a level with an id other than 0 has
    loaded, whatever tubes are tapped in either class, [resetLevel] brings
    back the board that the load installed, with no pending source and not
    complete.  A game whose level id is 0 is not reset at all. *)
Theorem reset_undoes_play (files : Z → option Json.LevelData) (levelId : Z)
    (d : Json.LevelData) (g : Game) (tubeIds : list Z) :
  files levelId = Some d → LevelManager.validateLevel (Some d) = true →
  levelId ≠ 0 →
  let g1 := loadLevel files levelId g in
  (currentGameState (resetLevel files (Bulk.taps tubeIds g1)) =
     currentGameState g1 ∧
   selectedTube (resetLevel files (Bulk.taps tubeIds g1)) = None ∧
   gameComplete (resetLevel files (Bulk.taps tubeIds g1)) = false) ∧
  (currentGameState (resetLevel files (Single.taps tubeIds g1)) =
     currentGameState g1 ∧
   selectedTube (resetLevel files (Single.taps tubeIds g1)) = None ∧
   gameComplete (resetLevel files (Single.taps tubeIds g1)) = false) ∧
  (∀ g0, currentLevel g0 = 0 → resetLevel files g0 = g0).
Proof.
  intros Hf Hv Hl g1.
  destruct (validated_board d Hv) as (gs & Hgs & _).
  assert (Hload : ∀ g', loadLevel files levelId g' =
            {| currentGameState := gs; selectedTube := None;
               gameComplete := false; currentLevel := levelId;
               calls := calls g' |}).
  { intros g'. by apply (loadLevel_valid files levelId d). }
  assert (Hreset : ∀ g', currentLevel g' = levelId →
            resetLevel files g' = loadLevel files levelId g').
  { intros g' Hg'. unfold resetLevel. rewrite Hg'.
    by destruct (Z.eqb_spec levelId 0). }
  assert (H1 : currentLevel g1 = levelId) by (unfold g1; by rewrite Hload).
  split; [|split].
  - rewrite Hreset by (by rewrite Bulk_taps_level).
    rewrite Hload. unfold g1. by rewrite Hload.
  - rewrite Hreset by (by rewrite Single_taps_level).
    rewrite Hload. unfold g1. by rewrite Hload.
  - intros g0 H0. unfold resetLevel. by rewrite H0.
Qed.

Lemma reset_after_a_move :
  let g1 := loadLevel (λ _, Some twoTubes) 1 (playing twoReds) in
  tubes (currentGameState (Bulk.taps [0; 1] g1)) =
    [tube 0 [] 2; tube 1 [blue; red] 2] ∧
  tubes (currentGameState (resetLevel (λ _, Some twoTubes)
                             (Bulk.taps [0; 1] g1))) =
    [tube 0 [red; blue] 2; tube 1 [] 2].
Proof.
  intros g1. split; [reflexivity|].
  destruct (reset_undoes_play (λ _, Some twoTubes) 1 twoTubes
              (playing twoReds) [0; 1] eq_refl eq_refl ltac:(lia))
    as ((H & _ & _) & _ & _).
  fold g1 in H. rewrite H. reflexivity.
Defined.

(** * Properties of the level manager *)

(** ** Lookup in the index *)

(** Distinct ids of an index written out. *)
Ltac nodup_ids :=
  simpl;
  repeat (apply NoDup_cons_2;
          [rewrite ?elem_of_cons, ?elem_of_nil; lia|]);
  apply NoDup_nil_2.

Lemma find_Some (a : Z) (ls : list Manager.LevelInfo) (i : nat)
    (l : Manager.LevelInfo) :
  Manager.find a ls = Some (i, l) → ls !! i = Some l ∧ Manager.id l = a.
Proof.
  unfold Manager.find. intros H.
  apply list_find_Some in H as (? & ? & _). done.
Qed.

(** With ids that are all different, the entry found for the id of an
    entry is that entry. *)
Lemma find_at (ls : list Manager.LevelInfo) (k : nat) (l : Manager.LevelInfo) :
  NoDup (Manager.id <$> ls) → ls !! k = Some l →
  Manager.find (Manager.id l) ls = Some (k, l).
Proof.
  intros Hnd Hk. unfold Manager.find. apply list_find_Some.
  split; [done|]. split; [done|]. intros j y Hj Hlt Hy.
  assert (j = k); [|lia].
  apply (NoDup_lookup _ j k (Manager.id l) Hnd);
    rewrite list_lookup_fmap; [by rewrite Hj; simpl; f_equal | by rewrite Hk].
Qed.

Lemma find_None (a : Z) (ls : list Manager.LevelInfo) :
  Forall (λ l, Manager.id l ≠ a) ls → Manager.find a ls = None.
Proof. intros H. by apply list_find_None. Qed.

(** X18.  In an index whose ids are all different, the next level of the
    entry at a position is the entry one position later, and none for the
    last entry; the previous level is the entry one position earlier, and
    none for the first; so the previous level of the next level of an
    entry is that entry.  An id that is not in the index has neither. *)
Theorem level_neighbours (s : Manager.State) (idx : Manager.LevelIndex)
    (k : nat) (l : Manager.LevelInfo) :
  Manager.levelIndex s = Some idx →
  NoDup (Manager.id <$> Manager.levels idx) →
  Manager.levels idx !! k = Some l →
  Manager.getNextLevel (Manager.id l) s = Manager.levels idx !! S k ∧
  Manager.getPreviousLevel (Manager.id l) s =
    (if decide (k = 0%nat) then None else Manager.levels idx !! (k - 1)%nat) ∧
  (∀ n, Manager.getNextLevel (Manager.id l) s = Some n →
        Manager.getPreviousLevel (Manager.id n) s = Some l) ∧
  (∀ a, Forall (λ l', Manager.id l' ≠ a) (Manager.levels idx) →
        Manager.getNextLevel a s = None ∧
        Manager.getPreviousLevel a s = None).
Proof.
  intros Hidx Hnd Hk.
  assert (Hnext : ∀ k' l', Manager.levels idx !! k' = Some l' →
            Manager.getNextLevel (Manager.id l') s =
              Manager.levels idx !! S k').
  { intros k' l' Hk'. unfold Manager.getNextLevel, Manager.nextOf,
      Manager.findIndex. rewrite Hidx, (find_at _ k' l') by done. simpl.
    case_bool_decide as Hlt.
    - by destruct (Manager.levels idx !! S k').
    - symmetry. simpl. apply lookup_ge_None. lia. }
  assert (Hprev : ∀ k' l', Manager.levels idx !! k' = Some l' →
            Manager.getPreviousLevel (Manager.id l') s =
              if decide (k' = 0%nat) then None
              else Manager.levels idx !! (k' - 1)%nat).
  { intros k' l' Hk'. unfold Manager.getPreviousLevel, Manager.findIndex.
    rewrite Hidx, (find_at _ k' l') by done. simpl.
    case_bool_decide; case_decide; done || lia. }
  split; [by apply Hnext|]. split; [by apply Hprev|]. split.
  - intros n Hn. rewrite (Hnext k l Hk) in Hn.
    rewrite (Hprev (S k) n Hn). simpl. by rewrite Nat.sub_0_r.
  - intros a Ha. unfold Manager.getNextLevel, Manager.getPreviousLevel,
      Manager.nextOf, Manager.findIndex.
    by rewrite Hidx, (find_None a _ Ha).
Qed.

Lemma neighbours_of_level_two :
  Manager.getNextLevel 2 (manager threeLevels) = Some (entry 3 false) ∧
  Manager.getPreviousLevel 2 (manager threeLevels) = Some (entry 1 true).
Proof.
  destruct (level_neighbours (manager threeLevels) threeLevels 1
              (entry 2 false) eq_refl) as (Hn & Hp & _); [|reflexivity|].
  - nodup_ids.
  - split; [exact Hn | exact Hp].
Defined.

(** ** Completing a level *)

Lemma find_insert (a : Z) (ls : list Manager.LevelInfo) (i : nat)
    (l l' : Manager.LevelInfo) :
  Manager.find a ls = Some (i, l) → Manager.id l' = a →
  Manager.find a (<[i := l']> ls) = Some (i, l').
Proof.
  unfold Manager.find. intros H Hid.
  apply list_find_Some in H as (Hi & _ & Hmin).
  apply list_find_Some. split; [|split; [done|]].
  - apply list_lookup_insert_eq. by eapply lookup_lt_Some.
  - intros j y Hj Hlt. rewrite list_lookup_insert_ne in Hj by lia.
    by apply (Hmin j).
Qed.

(** The entries of the index after [completeLevel] found the level. *)
Lemma completeLevel_found (s : Manager.State) (idx : Manager.LevelIndex)
    (levelId m st : Z) (i : nat) (info : Manager.LevelInfo) :
  Manager.levelIndex s = Some idx →
  Manager.find levelId (Manager.levels idx) = Some (i, info) →
  let ls1 := <[i := Manager.completeInfo info m st]> (Manager.levels idx) in
  let ls2 := match Manager.levels idx !! S i with
             | Some n => <[S i := Manager.unlock n]> ls1
             | None => ls1
             end in
  Manager.completeLevel levelId m st s =
    {| Manager.levelIndex := Some (Manager.with_levels ls2 idx);
       Manager.levelsCache := Manager.levelsCache s;
       Manager.currentLevel := Manager.currentLevel s;
       Manager.storage :=
         Some {| Manager.progress_version := Manager.version idx;
                 Manager.progress_levels := Manager.saveLevel <$> ls2 |} |}.
Proof.
  intros Hidx Hf ls1 ls2. unfold Manager.completeLevel.
  rewrite Hidx, Hf. cbv zeta. fold ls1.
  destruct (find_Some _ _ _ _ Hf) as [Hi Hid].
  assert (Hf1 : Manager.find levelId ls1 =
                Some (i, Manager.completeInfo info m st))
    by (by apply (find_insert levelId _ i info)).
  assert (Hnext : match Manager.nextOf levelId ls1 with
                  | Some (j, nextLevel) => <[j := Manager.unlock nextLevel]> ls1
                  | None => ls1
                  end = ls2).
  { unfold Manager.nextOf, Manager.findIndex. rewrite Hf1. simpl.
    assert (Hl1 : ls1 !! S i = Manager.levels idx !! S i)
      by (unfold ls1; by rewrite list_lookup_insert_ne by lia).
    assert (Hlen : length ls1 = length (Manager.levels idx))
      by (unfold ls1; by rewrite length_insert).
    rewrite Hlen, Hl1. unfold ls2.
    case_bool_decide as Hlt.
    - by destruct (Manager.levels idx !! S i).
    - rewrite (proj2 (lookup_ge_None (Manager.levels idx) (S i))); [done|lia]. }
  rewrite Hnext. done.
Qed.

(** X19.  [completeLevel] on a level of the index marks it completed,
    keeps the larger of its stars and the new stars, keeps the smaller of
    its best move count and the new one, a missing best or a best of 0
    being replaced by the new count; it unlocks the entry after it, if
    there is one, leaves every other entry as it was, and stores the
    progress of exactly the entries it leaves. *)
Theorem complete_level_effect (s : Manager.State) (idx : Manager.LevelIndex)
    (levelId m st : Z) (i : nat) (info : Manager.LevelInfo) :
  Manager.levelIndex s = Some idx →
  Manager.find levelId (Manager.levels idx) = Some (i, info) →
  ∃ ls',
    Manager.levelIndex (Manager.completeLevel levelId m st s) =
      Some (Manager.with_levels ls' idx) ∧
    Manager.storage (Manager.completeLevel levelId m st s) =
      Some {| Manager.progress_version := Manager.version idx;
              Manager.progress_levels := Manager.saveLevel <$> ls' |} ∧
    length ls' = length (Manager.levels idx) ∧
    (∃ info', ls' !! i = Some info' ∧ static info' = static info ∧
       Manager.unlocked info' = Manager.unlocked info ∧
       Manager.completed info' = true ∧
       Manager.stars info' = Z.max (Manager.stars info) st ∧
       Manager.bestMoves info' =
         Some (match Manager.bestMoves info with
               | None | Some 0 => m
               | Some b => Z.min b m
               end)) ∧
    (∀ n, Manager.levels idx !! S i = Some n →
          ls' !! S i = Some (Manager.unlock n)) ∧
    (∀ k, k ≠ i → k ≠ S i → ls' !! k = Manager.levels idx !! k).
Proof.
  intros Hidx Hf. rewrite (completeLevel_found s idx levelId m st i info)
    by done. simpl.
  destruct (find_Some _ _ _ _ Hf) as [Hi Hid].
  assert (Hli : (i < length (Manager.levels idx))%nat)
    by (by eapply lookup_lt_Some).
  eexists. split; [done|]. split; [done|].
  destruct (Manager.levels idx !! S i) as [n|] eqn:Hn.
  - split; [by rewrite !length_insert|]. split; [|split].
    + eexists. rewrite list_lookup_insert_ne by lia.
      rewrite list_lookup_insert_eq by done. split; [done|].
      repeat split. simpl. by destruct (Manager.bestMoves info) as [[| |]|].
    + intros n' [= <-]. apply list_lookup_insert_eq.
      rewrite length_insert. by eapply lookup_lt_Some.
    + intros k Hk1 Hk2. by rewrite !list_lookup_insert_ne.
  - split; [by rewrite length_insert|]. split; [|split].
    + eexists. rewrite list_lookup_insert_eq by done. split; [done|].
      repeat split. simpl. by destruct (Manager.bestMoves info) as [[| |]|].
    + done.
    + intros k Hk1 Hk2. by rewrite list_lookup_insert_ne.
Qed.

Lemma completing_level_one :
  ∃ ls',
    Manager.levelIndex (Manager.completeLevel 1 7 3 (manager threeLevels)) =
      Some (Manager.with_levels ls' threeLevels) ∧
    ls' !! 1%nat = Some (entry 2 true) ∧
    ls' !! 2%nat = Some (entry 3 false).
Proof.
  destruct (complete_level_effect (manager threeLevels) threeLevels 1 7 3
              0%nat (entry 1 true) eq_refl eq_refl)
    as (ls' & Hidx & _ & _ & _ & Hnext & Hrest).
  exists ls'. split; [exact Hidx|]. split.
  - exact (Hnext (entry 2 false) eq_refl).
  - rewrite (Hrest 2%nat) by lia. reflexivity.
Defined.

(** X20.  [completeLevel] never takes progress away, whatever level id it
    is given: every entry of the index keeps its place, id, file, name and
    difficulty, never has fewer stars than before, stays unlocked if it
    was, stays completed if it was, and a best move count other than 0 is
    never replaced by a larger one. *)
Theorem complete_level_keeps_progress (s : Manager.State) (levelId m st : Z)
    (k : nat) (l : Manager.LevelInfo) :
  Manager.getAllLevels s !! k = Some l →
  ∃ l', Manager.getAllLevels (Manager.completeLevel levelId m st s) !! k
          = Some l' ∧
        static l' = static l ∧
        Manager.stars l ≤ Manager.stars l' ∧
        (Manager.unlocked l = true → Manager.unlocked l' = true) ∧
        (Manager.completed l = true → Manager.completed l' = true) ∧
        (∀ b, Manager.bestMoves l = Some b → b ≠ 0 →
              ∃ b', Manager.bestMoves l' = Some b' ∧ b' ≤ b).
Proof.
  intros Hk.
  assert (Hsame : ∃ l', Some l = Some l' ∧ static l' = static l ∧
            Manager.stars l ≤ Manager.stars l' ∧
            (Manager.unlocked l = true → Manager.unlocked l' = true) ∧
            (Manager.completed l = true → Manager.completed l' = true) ∧
            (∀ b, Manager.bestMoves l = Some b → b ≠ 0 →
                  ∃ b', Manager.bestMoves l' = Some b' ∧ b' ≤ b)).
  { exists l. repeat split; try done; try lia.
    intros b Hb _. exists b. split; [done | lia]. }
  unfold Manager.getAllLevels in Hk.
  destruct (Manager.levelIndex s) as [idx|] eqn:Hidx; [|done].
  destruct (Manager.find levelId (Manager.levels idx)) as [[i info]|] eqn:Hf.
  - rewrite (completeLevel_found s idx levelId m st i info) by done.
    unfold Manager.getAllLevels. simpl.
    destruct (find_Some _ _ _ _ Hf) as [Hi Hid].
    assert (Hli : (i < length (Manager.levels idx))%nat)
      by (by eapply lookup_lt_Some).
    assert (Hlk : (k < length (Manager.levels idx))%nat)
      by (by eapply lookup_lt_Some).
    assert (Hcomplete : ∀ ls, ls !! k = Some l → (k < length ls)%nat →
      ∃ l', <[i := Manager.completeInfo info m st]> ls !! k = Some l' ∧
            (k = i → l' = Manager.completeInfo info m st) ∧ (k ≠ i → l' = l)).
    { intros ls Hl Hlt. destruct (decide (k = i)) as [->|Hne].
      - eexists. rewrite list_lookup_insert_eq by done. by repeat split.
      - exists l. rewrite list_lookup_insert_ne by done. by repeat split. }
    destruct (Hcomplete _ Hk Hlk) as (l1 & Hl1 & Heq & Hneq).
    assert (H1 : static l1 = static l ∧ Manager.stars l ≤ Manager.stars l1 ∧
            (Manager.unlocked l = true → Manager.unlocked l1 = true) ∧
            (Manager.completed l = true → Manager.completed l1 = true) ∧
            (∀ b, Manager.bestMoves l = Some b → b ≠ 0 →
                  ∃ b', Manager.bestMoves l1 = Some b' ∧ b' ≤ b)).
    { destruct (decide (k = i)) as [->|Hne].
      - rewrite (Heq eq_refl). assert (l = info) by congruence. subst l.
        repeat split; simpl; try done; try lia.
        intros b Hb Hb0. rewrite Hb. eexists. split; [done|].
        destruct (Z.eqb_spec b 0); lia.
      - rewrite (Hneq Hne). repeat split; try done; try lia.
        intros b Hb _. exists b. split; [done | lia]. }
    destruct (Manager.levels idx !! S i) as [n|] eqn:Hn; [|by exists l1].
    destruct (decide (k = S i)) as [->|Hne].
    + exists (Manager.unlock n). rewrite list_lookup_insert_eq
        by (by rewrite length_insert).
      split; [done|]. assert (l = n) by congruence. subst l.
      repeat split; simpl; try done; try lia.
      intros b Hb _. exists b. split; [done | lia].
    + exists l1. by rewrite list_lookup_insert_ne.
  - unfold Manager.completeLevel. rewrite Hidx, Hf.
    unfold Manager.getAllLevels. rewrite Hidx, Hk. exact Hsame.
Qed.

Lemma level_three_keeps_its_place :
  ∃ l', Manager.getAllLevels (Manager.completeLevel 1 7 3 (manager threeLevels))
          !! 2%nat = Some l' ∧
        static l' = static (entry 3 false) ∧
        Manager.stars (entry 3 false) ≤ Manager.stars l' ∧
        (Manager.unlocked (entry 3 false) = true →
           Manager.unlocked l' = true) ∧
        (Manager.completed (entry 3 false) = true →
           Manager.completed l' = true) ∧
        (∀ b, Manager.bestMoves (entry 3 false) = Some b → b ≠ 0 →
              ∃ b', Manager.bestMoves l' = Some b' ∧ b' ≤ b).
Proof.
  exact (complete_level_keeps_progress (manager threeLevels) 1 7 3 2%nat
           (entry 3 false) eq_refl).
Defined.

(** ** Saving and loading progress *)

Lemma applySaved_static (ls : list Manager.LevelInfo)
    (sv : Manager.SavedLevel) :
  static <$> Manager.applySaved ls sv = static <$> ls.
Proof.
  unfold Manager.applySaved.
  destruct (Manager.find _ ls) as [[i l]|] eqn:Hf; [|done].
  destruct (find_Some _ _ _ _ Hf) as [Hi _].
  rewrite list_fmap_insert. apply list_insert_id.
  by rewrite list_lookup_fmap, Hi.
Qed.

Lemma foldl_applySaved_static (svs : list Manager.SavedLevel)
    (ls : list Manager.LevelInfo) :
  static <$> foldl Manager.applySaved ls svs = static <$> ls.
Proof.
  revert ls. induction svs as [|sv svs IH]; intros ls; [done|].
  simpl. by rewrite IH, applySaved_static.
Qed.

Lemma static_id (ls ls' : list Manager.LevelInfo) :
  static <$> ls' = static <$> ls → Manager.id <$> ls' = Manager.id <$> ls.
Proof.
  intros H. apply (f_equal (fmap (λ p : Z * string * string * string,
                                    p.1.1.1))) in H.
  by rewrite <- !list_fmap_compose in H.
Qed.

(** Saved entries put back one after the other, on entries that differ
    from the saved ones in their progress only. *)
Lemma restore (todo : list Manager.LevelInfo) :
  ∀ pre todo',
    static <$> todo' = static <$> todo →
    NoDup (Manager.id <$> (pre ++ todo)) →
    foldl Manager.applySaved (pre ++ todo') (Manager.saveLevel <$> todo)
      = pre ++ todo.
Proof.
  induction todo as [|l todo IH]; intros pre todo' Hst Hnd.
  - apply fmap_nil_inv in Hst. by subst.
  - destruct todo' as [|l' todo']; [done|].
    rewrite !fmap_cons in Hst.
    injection Hst as Hid Hfile Hname Hdiff Hst.
    assert (Hids : Manager.id <$> (pre ++ l' :: todo') =
                   Manager.id <$> (pre ++ l :: todo)).
    { rewrite !fmap_app, !fmap_cons, Hid. f_equal. f_equal.
      by apply static_id. }
    assert (Hf : Manager.find (Manager.id l) (pre ++ l' :: todo') =
                 Some (length pre, l')).
    { rewrite <- Hid.
      apply find_at; [by rewrite Hids|].
      by rewrite lookup_app_r, Nat.sub_diag by lia. }
    simpl. unfold Manager.applySaved at 2. simpl. rewrite Hf.
    rewrite insert_app_r_alt, Nat.sub_diag by lia. simpl.
    assert (Hl' : {| Manager.id := Manager.id l'; Manager.file := Manager.file l';
                     Manager.name := Manager.name l';
                     Manager.difficulty := Manager.difficulty l';
                     Manager.unlocked := Manager.unlocked l;
                     Manager.completed := Manager.completed l;
                     Manager.stars := Manager.stars l;
                     Manager.bestMoves := Manager.bestMoves l |} = l).
    { destruct l, l'. simpl in *. by subst. }
    rewrite Hl'.
    rewrite (cons_middle l pre todo'), (cons_middle l pre todo), !app_assoc.
    apply IH; [done|]. by rewrite <- app_assoc.
Qed.

(** X21.  Progress survives a reload: when a manager with distinct level
    ids saves its progress, and a manager that has read the same index file
    again, with whatever progress fields that file carries, loads what was
    saved, every entry gets back its unlocked and completed marks, its
    stars and its best move count. *)
Theorem progress_survives_reload (s s0 : Manager.State)
    (idx idx0 : Manager.LevelIndex) :
  Manager.levelIndex s = Some idx →
  NoDup (Manager.id <$> Manager.levels idx) →
  Manager.levelIndex s0 = Some idx0 →
  Manager.version idx0 = Manager.version idx →
  static <$> Manager.levels idx0 = static <$> Manager.levels idx →
  Manager.getAllLevels
    (Manager.loadProgress
       (Manager.with_storage (Manager.storage (Manager.saveProgress s)) s0))
    = Manager.levels idx.
Proof.
  intros Hidx Hnd Hidx0 Hver Hst.
  unfold Manager.saveProgress, Manager.loadProgress, Manager.getAllLevels.
  rewrite Hidx. simpl. rewrite Hidx0, Hver.
  rewrite bool_decide_eq_true_2 by done. simpl.
  by apply (restore (Manager.levels idx) []).
Qed.

(** X22.  Whatever the storage holds, [loadProgress] changes no id, file,
    name or difficulty and neither adds nor drops an entry; with nothing
    stored, or progress stored under another version than that of the
    index, it changes nothing at all. *)
Theorem load_progress_is_careful (s : Manager.State) :
  static <$> Manager.getAllLevels (Manager.loadProgress s) =
    static <$> Manager.getAllLevels s ∧
  Manager.storage (Manager.loadProgress s) = Manager.storage s ∧
  match Manager.storage s, Manager.levelIndex s with
  | Some progress, Some idx =>
      Manager.progress_version progress ≠ Manager.version idx →
      Manager.loadProgress s = s
  | _, _ => Manager.loadProgress s = s
  end.
Proof.
  unfold Manager.loadProgress, Manager.getAllLevels.
  destruct (Manager.storage s) as [p|] eqn:Hp;
    destruct (Manager.levelIndex s) as [idx|] eqn:Hidx;
    rewrite ?Hidx; try done.
  case_bool_decide as Hv; simpl.
  - by rewrite foldl_applySaved_static.
  - by rewrite Hidx.
Qed.

Lemma level_one_survives_reload :
  Manager.levelIndex (Manager.completeLevel 1 7 3 (manager threeLevels)) =
    Some afterLevelOne ∧
  Manager.getAllLevels
    (Manager.loadProgress
       (Manager.with_storage
          (Manager.storage (Manager.saveProgress (manager afterLevelOne)))
          (manager threeLevels)))
    = Manager.levels afterLevelOne.
Proof.
  split; [reflexivity|].
  apply (progress_survives_reload (manager afterLevelOne)
           (manager threeLevels) afterLevelOne threeLevels);
    [reflexivity | nodup_ids | reflexivity | reflexivity | reflexivity].
Defined.

(** X23.  [resetProgress] forgets everything: afterwards the storage is
    empty, every entry is not completed, has 0 stars and no best move
    count, is unlocked exactly when its id is 1, and keeps its id, file,
    name and difficulty; loading progress then changes nothing, and a
    second reset changes nothing. *)
Theorem reset_progress_forgets (s : Manager.State) (idx : Manager.LevelIndex) :
  Manager.levelIndex s = Some idx →
  let s' := Manager.resetProgress s in
  Manager.storage s' = None ∧
  Forall isReset (Manager.getAllLevels s') ∧
  static <$> Manager.getAllLevels s' = static <$> Manager.levels idx ∧
  Manager.loadProgress s' = s' ∧
  Manager.resetProgress s' = s'.
Proof.
  intros Hidx s'. unfold s', Manager.resetProgress. rewrite Hidx. simpl.
  split; [done|]. split; [|split; [|split]].
  - unfold Manager.getAllLevels. simpl. apply Forall_fmap.
    apply Forall_forall. intros l _. by repeat split.
  - unfold Manager.getAllLevels. simpl.
    rewrite <- list_fmap_compose. by apply list_fmap_ext.
  - done.
  - unfold Manager.with_storage, Manager.with_index, Manager.with_levels.
    simpl. do 3 f_equal. rewrite <- list_fmap_compose.
    apply list_fmap_ext. intros i l _. by destruct l.
Qed.

Lemma reset_after_level_one :
  let s' := Manager.resetProgress
              (Manager.completeLevel 1 7 3 (manager threeLevels)) in
  Manager.storage s' = None ∧
  Manager.getAllLevels s' = Manager.levels threeLevels.
Proof.
  intros s'.
  destruct (reset_progress_forgets
              (Manager.completeLevel 1 7 3 (manager threeLevels))
              afterLevelOne eq_refl) as (Hs & _).
  split; [exact Hs | reflexivity].
Defined.

(** ** The level cache *)

(** X24.  With a cache that holds only levels that pass [validateLevel],
    [loadLevel] returns only such levels and keeps the cache so; a level it
    returns is made the current level and is in the cache under its id;
    when it fails, the manager is left as it was. *)
Theorem load_level_returns_validated (fetch : string → option Json.LevelData)
    (levelId : Z) (s : Manager.State) :
  cacheValid s →
  cacheValid (Manager.loadLevel fetch levelId s).2 ∧
  match (Manager.loadLevel fetch levelId s).1 with
  | Some d =>
      LevelManager.validateLevel (Some d) = true ∧
      Manager.currentLevel (Manager.loadLevel fetch levelId s).2 = Some d ∧
      Manager.levelsCache (Manager.loadLevel fetch levelId s).2 !! levelId
        = Some d ∧
      is_Some (Manager.getLevelInfo levelId s)
  | None => (Manager.loadLevel fetch levelId s).2 = s
  end.
Proof.
  intros Hc. unfold Manager.loadLevel, Manager.getLevelInfo.
  destruct (Manager.levelIndex s) as [idx|]; [|done].
  destruct (Manager.find levelId _) as [[i info]|]; [|done].
  destruct (Manager.levelsCache s !! levelId) as [d|] eqn:Hd.
  - simpl. split; [done|]. split; [by eapply Hc|]. by repeat split.
  - destruct (fetch _) as [d|]; [|done].
    destruct (LevelManager.validateLevel (Some d)) eqn:Hv; [|done].
    simpl. split.
    + intros k d'. unfold cacheValid in Hc. simpl.
      destruct (decide (k = levelId)) as [->|Hne].
      * rewrite lookup_insert_eq. by intros [= <-].
      * rewrite lookup_insert_ne by done. apply Hc.
    + split; [done|]. split; [done|]. split; [|done].
      by rewrite lookup_insert_eq.
Qed.

Lemma first_load_is_validated :
  cacheValid
    (Manager.loadLevel (λ _, Some twoTubes) 2 (manager threeLevels)).2 ∧
  (Manager.loadLevel (λ _, Some twoTubes) 2 (manager threeLevels)).1
    = Some twoTubes.
Proof.
  split; [|reflexivity].
  apply (load_level_returns_validated (λ _, Some twoTubes) 2
           (manager threeLevels)).
  intros k d Hk. simpl in Hk. by rewrite lookup_empty in Hk.
Defined.

(** X25.  A level that [loadLevel] has returned once is returned again for
    the same id whatever the files have become: the second load answers
    from the cache, does not validate again, and leaves the manager as the
    first load left it. *)
Theorem second_load_hits_the_cache
    (fetch fetch' : string → option Json.LevelData) (levelId : Z)
    (s : Manager.State) (d : Json.LevelData) :
  (Manager.loadLevel fetch levelId s).1 = Some d →
  Manager.loadLevel fetch' levelId (Manager.loadLevel fetch levelId s).2 =
    (Some d, (Manager.loadLevel fetch levelId s).2).
Proof.
  unfold Manager.loadLevel.
  destruct (Manager.levelIndex s) as [idx|] eqn:Hidx; [|done].
  destruct (Manager.find levelId _) as [[i info]|] eqn:Hf; [|done].
  destruct (Manager.levelsCache s !! levelId) as [c|] eqn:Hc.
  - simpl. intros [= <-]. by rewrite ?Hidx, ?Hf, ?Hc.
  - destruct (fetch _) as [d'|]; [|done].
    destruct (LevelManager.validateLevel (Some d')); [|done].
    simpl. intros [= <-]. by rewrite ?Hidx, ?Hf, lookup_insert_eq.
Qed.

Lemma stale_level_is_served :
  Manager.loadLevel (λ _, None) 2
    (Manager.loadLevel (λ _, Some twoTubes) 2 (manager threeLevels)).2 =
    (Some twoTubes,
     (Manager.loadLevel (λ _, Some twoTubes) 2 (manager threeLevels)).2).
Proof.
  exact (second_load_hits_the_cache (λ _, Some twoTubes) (λ _, None) 2
           (manager threeLevels) twoTubes eq_refl).
Defined.

(** X26.  While the cache holds, for each id, only the validated file of
    that id, [loadLevel] returns for every id what fetching the file named
    in the index and validating it returns, and keeps the cache so. *)
Theorem cache_is_transparent (fetch : string → option Json.LevelData)
    (levelId : Z) (s : Manager.State) (idx : Manager.LevelIndex) :
  Manager.levelIndex s = Some idx →
  (∀ k d, Manager.levelsCache s !! k = Some d →
          LevelManager.loadLevel (filesOf (Manager.levels idx) fetch) k
            = Some d) →
  (Manager.loadLevel fetch levelId s).1 =
    LevelManager.loadLevel (filesOf (Manager.levels idx) fetch) levelId ∧
  Manager.levelIndex (Manager.loadLevel fetch levelId s).2 = Some idx ∧
  (∀ k d,
     Manager.levelsCache (Manager.loadLevel fetch levelId s).2 !! k = Some d →
     LevelManager.loadLevel (filesOf (Manager.levels idx) fetch) k = Some d).
Proof.
  intros Hidx Hc. unfold Manager.loadLevel. rewrite Hidx.
  assert (Hnone : Manager.find levelId (Manager.levels idx) = None →
            LevelManager.loadLevel (filesOf (Manager.levels idx) fetch)
              levelId = None).
  { intros Hf. unfold LevelManager.loadLevel, filesOf. by rewrite Hf. }
  destruct (Manager.find levelId _) as [[i info]|] eqn:Hf;
    [|by rewrite Hnone].
  destruct (Manager.levelsCache s !! levelId) as [c|] eqn:Hcache.
  - simpl. by rewrite (Hc levelId c).
  - assert (Hfile : LevelManager.loadLevel (filesOf (Manager.levels idx) fetch)
              levelId =
            match fetch (Manager.file info) with
            | Some d => if LevelManager.validateLevel (Some d)
                        then Some d else None
            | None => None
            end).
    { unfold LevelManager.loadLevel, filesOf. rewrite Hf.
      by destruct (fetch _). }
    rewrite Hfile.
    destruct (fetch _) as [d|]; [|done].
    destruct (LevelManager.validateLevel (Some d)) eqn:Hv; [|done].
    simpl. split; [done|]. split; [done|]. intros k d'.
    destruct (decide (k = levelId)) as [->|Hne].
    + rewrite lookup_insert_eq. intros [= <-]. by rewrite Hfile.
    + rewrite lookup_insert_ne by done. apply Hc.
Qed.

Lemma empty_cache_is_transparent :
  (Manager.loadLevel (λ _, Some twoTubes) 2 (manager threeLevels)).1 =
    LevelManager.loadLevel
      (filesOf (Manager.levels threeLevels) (λ _, Some twoTubes)) 2.
Proof.
  refine (proj1 (cache_is_transparent (λ _, Some twoTubes) 2
                   (manager threeLevels) threeLevels eq_refl _)).
  intros k d Hk. simpl in Hk. by rewrite lookup_empty in Hk.
Defined.

(** ** The placeholder win *)

(** X27.  In the class with the placeholder win, a game that taps bring
    from not complete to complete has a [minMoves], has counted at least
    that many moves, and shows a tube without balls and a tube filled to
    its capacity; a level without [minMoves] is never completed by taps. *)
Theorem placeholder_completion (tubeIds : list Z) (g : Game) :
  gameComplete g = false →
  gameComplete (Single.taps tubeIds g) = true →
  let gs := currentGameState (Single.taps tubeIds g) in
  (∃ m, minMoves gs = Some m ∧ m ≤ moves gs) ∧
  Exists (λ t, balls t = []) (tubes gs) ∧
  Exists (λ t, len (balls t) = capacity t) (tubes gs).
Proof.
  intros Hc Hdone gs.
  assert (Hwin : Single.placeholderWin gs = true).
  { apply (taps_count Single.attemptMove Single.placeholderWin);
      [intros; by apply Single_attempt_counts
      |intros; by apply Single_attempt_counts | done | done]. }
  unfold Single.placeholderWin in Hwin.
  apply andb_true_iff in Hwin as [Hwin Hfull].
  apply andb_true_iff in Hwin as [Hmin Hempty].
  split; [|split].
  - unfold ge_number in Hmin. destruct (minMoves gs) as [m|]; [|done].
    exists m. split; [done|]. by apply Z.leb_le.
  - apply existsb_exists in Hempty as (t & Hin & Ht).
    apply Exists_exists. exists t. split; [by apply list_elem_of_In|].
    apply len_nil_iff. by apply Z.eqb_eq.
  - apply existsb_exists in Hfull as (t & Hin & Ht).
    apply Exists_exists. exists t. split; [by apply list_elem_of_In|].
    by apply Z.eqb_eq.
Qed.

Lemma placeholder_on_two_tubes :
  let g1 := loadLevel (λ _, Some twoTubes) 1 (playing twoReds) in
  let gs := currentGameState (Single.taps [0; 1; 0; 1] g1) in
  (∃ m, minMoves gs = Some m ∧ m ≤ moves gs) ∧
  Exists (λ t, balls t = []) (tubes gs) ∧
  Exists (λ t, len (balls t) = capacity t) (tubes gs).
Proof.
  exact (placeholder_completion [0; 1; 0; 1]
           (loadLevel (λ _, Some twoTubes) 1 (playing twoReds))
           eq_refl eq_refl).
Defined.

(** * The shuffle of the converter *)

Lemma swap_Permutation {A : Type} (i j : nat) (array : list A) :
  swap i j array ≡ₚ array.
Proof.
  unfold swap. destruct (array !! i) as [x|] eqn:Hi; [|done].
  destruct (array !! j) as [y|] eqn:Hj; [|done].
  by apply Permutation_insert_swap.
Qed.

Lemma shuffleFrom_Permutation {A : Type} (draw : nat → nat) (i : nat) :
  ∀ array : list A, shuffleFrom draw i array ≡ₚ array.
Proof.
  induction i as [|i IH]; intros array; [done|].
  simpl. rewrite IH. apply swap_Permutation.
Qed.

(** X28.  Whatever numbers the random source draws, [shuffleArray] only
    rearranges: the shuffled array holds the elements of the array, each as
    often as before, and is as long. *)
Theorem shuffle_rearranges {A : Type} (draw : nat → nat) (array : list A) :
  shuffleArray draw array ≡ₚ array ∧
  length (shuffleArray draw array) = length array.
Proof.
  assert (H : shuffleArray draw array ≡ₚ array)
    by apply shuffleFrom_Permutation.
  split; [done|]. by rewrite H.
Qed.

Example shuffle_of_four :
  shuffleArray (λ i, 2 * i)%nat ["red"; "blue"; "green"; "pink"] =
    ["pink"; "red"; "blue"; "green"].
Proof. reflexivity. Qed.

(** * Advancing to the next level *)

Lemma getNextLevel_at (m : Manager.State) (idx : Manager.LevelIndex)
    (k : nat) (l : Manager.LevelInfo) :
  Manager.levelIndex m = Some idx →
  NoDup (Manager.id <$> Manager.levels idx) →
  Manager.levels idx !! k = Some l →
  Manager.getNextLevel (Manager.id l) m = Manager.levels idx !! S k.
Proof.
  intros Hidx Hnd Hk. unfold Manager.getNextLevel, Manager.nextOf,
    Manager.findIndex. rewrite Hidx, (find_at _ k l) by done. simpl.
  case_bool_decide as Hlt.
  - by destruct (Manager.levels idx !! S k).
  - symmetry. simpl. apply lookup_ge_None. lia.
Qed.

(** X29.  [nextLevel] of the game, on an index with distinct ids, loads
    the level listed right after the level being played, by the rules of
    [loadLevel]: a valid file installs its board and makes its id the
    current level, an invalid one leaves the game as it is.  On the last
    level of the index, and on a level that is not in the index,
    [nextLevel] leaves the game as it is. *)
Theorem next_level_advances (m : Manager.State) (idx : Manager.LevelIndex)
    (files : Z → option Json.LevelData) (g : Game) (k : nat)
    (l : Manager.LevelInfo) :
  Manager.levelIndex m = Some idx →
  NoDup (Manager.id <$> Manager.levels idx) →
  Manager.levels idx !! k = Some l → currentLevel g = Manager.id l →
  nextLevel m files g =
    match Manager.levels idx !! S k with
    | Some n => loadLevel files (Manager.id n) g
    | None => g
    end ∧
  (∀ n d gs, Manager.levels idx !! S k = Some n →
             files (Manager.id n) = Some d →
             LevelManager.validateLevel (Some d) = true →
             LevelManager.createGameLevel (Some d) = Some gs →
             currentGameState (nextLevel m files g) = gs ∧
             currentLevel (nextLevel m files g) = Manager.id n ∧
             gameComplete (nextLevel m files g) = false) ∧
  (∀ g0, Forall (λ l', Manager.id l' ≠ currentLevel g0) (Manager.levels idx) →
         nextLevel m files g0 = g0).
Proof.
  intros Hidx Hnd Hk Hcur.
  assert (Hnext : nextLevel m files g =
            match Manager.levels idx !! S k with
            | Some n => loadLevel files (Manager.id n) g
            | None => g
            end).
  { unfold nextLevel. rewrite Hcur, (getNextLevel_at m idx k l) by done.
    by destruct (Manager.levels idx !! S k). }
  split; [done|]. split.
  - intros n d gs Hn Hf Hv Hgs. rewrite Hnext, Hn.
    by rewrite (loadLevel_valid files (Manager.id n) d gs).
  - intros g0 Hall. unfold nextLevel, Manager.getNextLevel, Manager.nextOf,
      Manager.findIndex. by rewrite Hidx, (find_None _ _ Hall).
Qed.

Lemma next_after_level_two :
  nextLevel (manager threeLevels) (λ _, Some twoTubes)
    (loadLevel (λ _, Some twoTubes) 2 (playing twoReds)) =
  loadLevel (λ _, Some twoTubes) 3
    (loadLevel (λ _, Some twoTubes) 2 (playing twoReds)).
Proof.
  refine (proj1 (next_level_advances (manager threeLevels) threeLevels
                   (λ _, Some twoTubes)
                   (loadLevel (λ _, Some twoTubes) 2 (playing twoReds))
                   1 (entry 2 false) eq_refl _ eq_refl eq_refl)).
  nodup_ids.
Defined.
